(** * ai_processor: token budgeting, chunk splitting and the processing loops

    A shallow embedding of [ai_processor/ai_processor.py]
    (classes [BaseAIProcessor], [EmbeddingsProcessor], [ChatProcessor]).

    Conventions.
    - A Python [str] is a [list ascii]; a character is a code point below 256
      and is classified the way CPython classifies that code point
      ([str.isspace], the [re] classes [\w] and [\s], the line boundaries of
      [str.splitlines]).
    - A Python [int] is a [Z]; a Python [float] is a binary64 [spec_float].
    - A call that may raise returns a [result]; [Raise e] is the exception
      leaving the function.
    - Logging is not modelled, except where evaluating a log message can
      itself raise (the debug lines of the two [_call_model] methods). *)

From Stdlib Require Import List Ascii String ZArith Lia Bool.
From Stdlib Require Import Floats.SpecFloat.
Import ListNotations.
Open Scope Z_scope.

(** ** Python values *)

Definition str := list ascii.

Definition lit (s : string) : str := list_ascii_of_string s.

(** Binary64, the format of a Python [float]. *)
Definition prec : Z := 53.
Definition emax : Z := 1024.
Definition float := spec_float.

Inductive exn : Type :=
| ValueError (msg : string)
| OverflowError
| IndexError
| KeyError
| TypeError
| AttributeError
| TransportError (msg : string).

Inductive result (A : Type) : Type :=
| Ok (a : A)
| Raise (e : exn).

Arguments Ok {A} a.
Arguments Raise {A} e.

Definition bind {A B : Type} (r : result A) (k : A -> result B) : result B :=
  match r with
  | Ok a => k a
  | Raise e => Raise e
  end.

Notation "x <- r ;; k" := (bind r (fun x => k))
  (at level 61, r at next level, right associativity).

Definition len {A : Type} (l : list A) : Z := Z.of_nat (List.length l).

(** ** Character classes *)

Definition ord (c : ascii) : N := N_of_ascii c.

(** [str.isspace] and the [re] class [\s] (they agree in CPython). *)
Definition is_space (c : ascii) : bool :=
  let n := ord c in
  (((9 <=? n) && (n <=? 13)) || ((28 <=? n) && (n <=? 31))
   || (n =? 32) || (n =? 133) || (n =? 160))%N.

(** The [re] class [\w] under [re.UNICODE]: alphanumeric or underscore. *)
Definition is_word (c : ascii) : bool :=
  let n := ord c in
  (((48 <=? n) && (n <=? 57)) || ((65 <=? n) && (n <=? 90))
   || (n =? 95) || ((97 <=? n) && (n <=? 122))
   || (n =? 170) || (n =? 178) || (n =? 179) || (n =? 181)
   || (n =? 185) || (n =? 186) || ((188 <=? n) && (n <=? 190))
   || ((192 <=? n) && (n <=? 214)) || ((216 <=? n) && (n <=? 246))
   || (248 <=? n))%N.

(** The line boundaries of [str.splitlines]. *)
Definition is_linebreak (c : ascii) : bool :=
  let n := ord c in
  (((10 <=? n) && (n <=? 13)) || ((28 <=? n) && (n <=? 30)) || (n =? 133))%N.

Definition CR : ascii := ascii_of_N 13.
Definition LF : ascii := ascii_of_N 10.
Definition SP : ascii := " "%char.

(** ** String primitives *)

(** A pending run of characters, kept reversed; it yields an item only when
    it is not empty. *)
Definition flush (run : str) : list str :=
  match run with
  | [] => []
  | _ => [rev run]
  end.

(** [re.findall(r'\w+|[^\w\s]', text, re.UNICODE)], scanning left to right
    with the current run of word characters in [run]. *)
Fixpoint findall_from (run : str) (text : str) : list str :=
  match text with
  | [] => flush run
  | c :: rest =>
      if is_word c then findall_from (c :: run) rest
      else flush run
             ++ (if is_space c then [] else [[c]])
             ++ findall_from [] rest
  end.

Definition findall (text : str) : list str := findall_from [] text.

(** [str.split()] with no argument: maximal runs of non-whitespace. *)
Fixpoint split_from (run : str) (text : str) : list str :=
  match text with
  | [] => flush run
  | c :: rest =>
      if is_space c then flush run ++ split_from [] rest
      else split_from (c :: run) rest
  end.

Definition str_split (text : str) : list str := split_from [] text.

(** [str.splitlines()]: a line ends at a line boundary, ["\r\n"] is one
    boundary, and no empty line is produced after the last boundary. *)
Fixpoint splitlines_from (run : str) (text : str) : list str :=
  match text with
  | [] => flush run
  | c :: rest =>
      if is_linebreak c then
        match rest with
        | c' :: rest' =>
            if (Ascii.eqb c CR && Ascii.eqb c' LF)%bool
            then rev run :: splitlines_from [] rest'
            else rev run :: splitlines_from [] rest
        | [] => [rev run]
        end
      else splitlines_from (c :: run) rest
  end.

Definition str_splitlines (text : str) : list str := splitlines_from [] text.

(** [sep.join(items)]. *)
Fixpoint join (sep : str) (items : list str) : str :=
  match items with
  | [] => []
  | [x] => x
  | x :: rest => x ++ sep ++ join sep rest
  end.

Definition sum (l : list Z) : Z := fold_right Z.add 0 l.

(** ** BaseAIProcessor *)

(** [_count_tokens]: every token costs [max(1, len(token) // 5)]. *)
Definition token_cost (token : str) : Z := Z.max 1 (len token / 5).

Definition _count_tokens (text : str) : Z :=
  sum (map token_cost (findall text)).


Record BaseAIProcessor : Type := {
  max_tokens : Z;
  response_ratio : option float;
  chunk_size : Z
}.

(** Arithmetic of [int] with [float] operands: the [int] is converted first
    and the conversion raises when the integer is out of the float range. *)
Definition float_of_int (z : Z) : result float :=
  match binary_normalize prec emax z 0 false with
  | S754_infinity _ => Raise OverflowError
  | f => Ok f
  end.

Definition float_zero : float := S754_zero false.
Definition float_one : float := binary_normalize prec emax 1 0 false.

(** [int(x)] on a float: truncation toward zero. *)
Definition int_of_float (x : float) : result Z :=
  match x with
  | S754_zero _ => Ok 0
  | S754_finite s m e => Ok (cond_Zopp s (Z.shiftl (Zpos m) e))
  | S754_infinity _ => Raise OverflowError
  | S754_nan => Raise (ValueError "cannot convert float NaN to integer")
  end.

(** [_calculate_chunk_size], on the two settings it reads. *)
Definition _calculate_chunk_size (max_tokens : Z) (response_ratio : option float)
  : result Z :=
  match response_ratio with
  | None => Ok max_tokens
  | Some ratio =>
      if negb (SFltb float_zero ratio && SFltb ratio float_one) then
        Raise (ValueError "response_ratio must be between 0 and 1.")
      else
        m <- float_of_int max_tokens ;;
        int_of_float (SFmul prec emax m (SFsub prec emax float_one ratio))
  end.

(** [__init__]: the chunk size is computed once, at construction. *)
Definition init (max_tokens : Z) (response_ratio : option float)
  : result BaseAIProcessor :=
  size <- _calculate_chunk_size max_tokens response_ratio ;;
  Ok {| max_tokens := max_tokens;
        response_ratio := response_ratio;
        chunk_size := size |}.

Definition not_enough_tokens : exn :=
  ValueError "Not enough tokens available for the response.".

Definition _calculate_reserved_tokens (self : BaseAIProcessor)
    (prompt chunk : str) (last_chunk_token_count : Z) : result Z :=
  let prompt_tokens := _count_tokens prompt in
  let chunk_tokens := _count_tokens chunk in
  let total_prompt_tokens := prompt_tokens + chunk_tokens + last_chunk_token_count in
  let reserved_tokens := max_tokens self - total_prompt_tokens in
  if reserved_tokens <=? 0 then Raise not_enough_tokens
  else Ok reserved_tokens.

(** The loop of [_extract_last_chunk_end] over [reversed(words)], with its
    two accumulators; leaving the recursion is the [break]. *)
Fixpoint tail_loop (last_chunk_token_count : Z) (rwords : list str)
    (result : list str) (token_count : Z) : list str :=
  match rwords with
  | [] => result
  | word :: rest =>
      let word_tokens := _count_tokens word in
      if token_count + word_tokens >? last_chunk_token_count then result
      else tail_loop last_chunk_token_count rest
             (result ++ [word]) (token_count + word_tokens)
  end.

Definition _extract_last_chunk_end (response_text : str)
    (last_chunk_token_count : Z) : str :=
  let words := str_split response_text in
  join [SP] (rev (tail_loop last_chunk_token_count (rev words) [] 0)).

(** State of the loop of [_split_into_chunks]. *)
Record split_state : Type := {
  chunks : list str;
  current_chunk : list str;
  current_token_count : Z
}.

Definition word_step (effective_chunk_size : Z) (st : split_state) (word : str)
  : split_state :=
  let word_token_count := _count_tokens word in
  if current_token_count st + word_token_count >? effective_chunk_size then
    {| chunks := chunks st ++ [join [SP] (current_chunk st)];
       current_chunk := [word];
       current_token_count := word_token_count |}
  else
    {| chunks := chunks st;
       current_chunk := current_chunk st ++ [word];
       current_token_count := current_token_count st + word_token_count |}.

Definition line_step (effective_chunk_size : Z) (st : split_state) (line : str)
  : split_state :=
  let line_token_count := _count_tokens line in
  if line_token_count >? effective_chunk_size then
    fold_left (word_step effective_chunk_size) (str_split line) st
  else if current_token_count st + line_token_count >? effective_chunk_size then
    {| chunks := chunks st ++ [join [SP] (current_chunk st)];
       current_chunk := [line];
       current_token_count := line_token_count |}
  else
    {| chunks := chunks st;
       current_chunk := current_chunk st ++ [line];
       current_token_count := current_token_count st + line_token_count |}.

Definition split_start : split_state :=
  {| chunks := []; current_chunk := []; current_token_count := 0 |}.

Definition split_finish (st : split_state) : list str :=
  match current_chunk st with
  | [] => chunks st
  | _ => chunks st ++ [join [SP] (current_chunk st)]
  end.

Definition effective_budget (self : BaseAIProcessor) (last_chunk_end : str)
    (include_last_chunk : bool) : Z :=
  if include_last_chunk then chunk_size self - _count_tokens last_chunk_end
  else chunk_size self.

Definition chunk_too_small : exn :=
  ValueError "Effective chunk size is too small to process further.".

Definition _split_into_chunks (self : BaseAIProcessor) (context : str)
    (last_chunk_end : str) (include_last_chunk : bool) : result (list str) :=
  let effective_chunk_size :=
    effective_budget self last_chunk_end include_last_chunk in
  if effective_chunk_size <=? 0 then Raise chunk_too_small
  else
    Ok (split_finish
          (fold_left (line_step effective_chunk_size)
             (str_splitlines context) split_start)).

(** ** The model-call collaborator *)

#[local] Unset Elimination Schemes.
(** A decoded JSON document, as [response.json()] returns it; the keys of
    an object are distinct. *)
Inductive json : Type :=
| JNull
| JBool (b : bool)
| JInt (z : Z)
| JFloat (x : float)
| JStr (s : str)
| JList (items : list json)
| JDict (fields : list (string * json)).
#[local] Set Elimination Schemes.

Fixpoint lookup (key : string) (fields : list (string * json)) : option json :=
  match fields with
  | [] => None
  | (k, v) :: rest => if String.eqb k key then Some v else lookup key rest
  end.

(** [value.get(key, default)]: only a dict has the method. *)
Definition py_get (value : json) (key : string) (default : json) : result json :=
  match value with
  | JDict fields =>
      Ok (match lookup key fields with Some v => v | None => default end)
  | _ => Raise AttributeError
  end.

(** [value[0]].  The keys of a decoded JSON object are strings, so the
    integer key is never found in a dict. *)
Definition py_item0 (value : json) : result json :=
  match value with
  | JList (x :: _) => Ok x
  | JList [] => Raise IndexError
  | JStr (c :: _) => Ok (JStr [c])
  | JStr [] => Raise IndexError
  | JDict _ => Raise KeyError
  | _ => Raise TypeError
  end.

(** [len(value)]. *)
Definition py_len (value : json) : result Z :=
  match value with
  | JStr s => Ok (len s)
  | JList items => Ok (len items)
  | JDict fields => Ok (len fields)
  | _ => Raise TypeError
  end.

(** [_format_with_truncation], as far as raising goes: the text needs a
    length, and a slice when it is longer than [max_length] (a dict has
    none). The formatted string only reaches the log. *)
Definition _format_with_truncation (text : json) (max_length : Z) : result unit :=
  n <- py_len text ;;
  if n >? max_length then
    match text with
    | JDict _ => Raise TypeError
    | _ => Ok tt
    end
  else Ok tt.

(** The remote endpoint behind [session.post(...)] and [response.json()]:
    given the number of calls already made in the run and the two arguments
    of [_call_model], it answers with a decoded document or raises. *)
Definition transport : Type := nat -> str -> str -> result json.

Module Embeddings.

Record item : Type := {
  index : Z;
  message : str;
  embedding : json
}.

Record outcome : Type := {
  status : string;
  embeddings : list item
}.

Definition extract (response_data : json) : result json :=
  data <- py_get response_data "data" (JList [JDict []]) ;;
  first <- py_item0 data ;;
  embedding <- py_get first "embedding" (JList []) ;;
  _ <- py_len embedding ;;
  Ok embedding.

Definition _call_model (post : transport) (calls : nat)
    (prompt input_text : str) : result json :=
  response_data <- post calls prompt input_text ;;
  extract response_data.

(** The loop of [process]; [index] is the counter of [enumerate]. *)
Fixpoint loop (post : transport) (index : nat) (context : list str)
    (embeddings : list item) : result (list item) :=
  match context with
  | [] => Ok embeddings
  | message :: rest =>
      embedding <- _call_model post index [] message ;;
      loop post (S index) rest
        (embeddings ++ [ {| index := Z.of_nat index;
                            message := message;
                            embedding := embedding |} ])
  end.

(** [process], on a context that is a list of messages. *)
Definition process (post : transport) (context : list str) : result outcome :=
  embeddings <- loop post 0 context [] ;;
  Ok {| status := "success"; embeddings := embeddings |}.

End Embeddings.

Module Chat.

Record item : Type := {
  index : Z;
  input_text : str;
  response_text : json
}.

Record outcome : Type := {
  status : string;
  chunks : list item
}.

Record prompts : Type := {
  initial : str;
  follow_up_template : str
}.

(** The [options] dict as callers pass it (see [examples/chat_model.py]);
    each key may be absent. *)
Record options : Type := {
  include_last_chunk : option bool;
  last_chunk_token_count : option Z
}.

Definition extract (response_data : json) : result json :=
  choices <- py_get response_data "choices" (JList [JDict []]) ;;
  first <- py_item0 choices ;;
  message <- py_get first "message" (JDict []) ;;
  response_text <- py_get message "content" (JStr []) ;;
  _ <- _format_with_truncation response_text 50 ;;
  Ok response_text.

Definition _call_model (post : transport) (calls : nat)
    (prompt input_text : str) : result json :=
  response_data <- post calls prompt input_text ;;
  extract response_data.

(** [options.get("include_last_chunk", False) if options else False]. *)
Definition include_flag (opts : option options) : bool :=
  match opts with
  | Some o =>
      match include_last_chunk o with
      | Some b => b
      | None => false
      end
  | None => false
  end.

(** What the loop of [process] carries from one chunk to the next. *)
Record state : Type := {
  results : list item;
  last_chunk_end : str;
  carried_token_count : Z
}.

Definition start : state :=
  {| results := []; last_chunk_end := []; carried_token_count := 0 |}.

(** [_extract_last_chunk_end(response_text)], called with the default bound
    of 50 tokens; [response_text.split()] exists only on a string. *)
Definition extract_tail_of (response_text : json) : result str :=
  match response_text with
  | JStr s => Ok (_extract_last_chunk_end s 50)
  | _ => Raise AttributeError
  end.

Section Process.

Variable self : BaseAIProcessor.
Variable post : transport.
(** [template.format(last_chunk_end=tail)]. *)
Variable format : str -> str -> result str.

(** The initial prompt for the first chunk, the formatted follow-up
    template for the others. *)
Definition build_prompt (p : prompts) (index : nat) (st : state)
  : result str :=
  match index with
  | O => Ok (initial p)
  | S _ => format (follow_up_template p) (last_chunk_end st)
  end.

(** One iteration of the loop of [process]. *)
Definition step (p : prompts) (include : bool) (index : nat) (chunk : str)
    (st : state) : result state :=
  prompt <- build_prompt p index st ;;
  reserved_tokens <-
    _calculate_reserved_tokens self prompt chunk (carried_token_count st) ;;
  response_text <- _call_model post index prompt chunk ;;
  let results' :=
    results st ++ [ {| index := Z.of_nat index + 1;
                       input_text := chunk;
                       response_text := response_text |} ] in
  if include then
    tail <- extract_tail_of response_text ;;
    Ok {| results := results';
          last_chunk_end := tail;
          carried_token_count := _count_tokens tail |}
  else
    Ok {| results := results';
          last_chunk_end := last_chunk_end st;
          carried_token_count := carried_token_count st |}.

Fixpoint loop (p : prompts) (include : bool) (index : nat)
    (chunks : list str) (st : state) : result state :=
  match chunks with
  | [] => Ok st
  | chunk :: rest =>
      st' <- step p include index chunk st ;;
      loop p include (S index) rest st'
  end.

Definition process (context : str) (p : prompts) (opts : option options)
  : result outcome :=
  let include := include_flag opts in
  chunks <- _split_into_chunks self context [] include ;;
  st <- loop p include 0 chunks start ;;
  Ok {| status := "success"; chunks := results st |}.

End Process.

End Chat.

(** [str.format] with the keyword [last_chunk_end], for the templates the
    examples use: literal text, doubled braces and the replacement field
    [{last_chunk_end}].  A field with any other content is reported as the
    [KeyError] of an unknown keyword. *)
Fixpoint format_scan (field : option str) (template tail : str) : result str :=
  match template with
  | [] =>
      match field with
      | None => Ok []
      | Some _ => Raise (ValueError "expected '}' before end of string")
      end
  | c :: rest =>
      match field with
      | Some name =>
          if Ascii.eqb c "}" then
            if list_eq_dec ascii_dec (rev name) (lit "last_chunk_end") then
              out <- format_scan None rest tail ;; Ok (tail ++ out)
            else Raise KeyError
          else format_scan (Some (c :: name)) rest tail
      | None =>
          if Ascii.eqb c "{" then
            match rest with
            | c' :: rest' =>
                if Ascii.eqb c' "{" then
                  out <- format_scan None rest' tail ;; Ok (c :: out)
                else format_scan (Some []) rest tail
            | [] => format_scan (Some []) rest tail
            end
          else if Ascii.eqb c "}" then
            match rest with
            | c' :: rest' =>
                if Ascii.eqb c' "}" then
                  out <- format_scan None rest' tail ;; Ok (c :: out)
                else Raise (ValueError "Single '}' encountered in format string")
            | [] => Raise (ValueError "Single '}' encountered in format string")
            end
          else out <- format_scan None rest tail ;; Ok (c :: out)
      end
  end.

Definition format_plain (template tail : str) : result str :=
  format_scan None template tail.

(** ** Reference definitions, written from the specification *)

Module Spec.

(** Budget calculator: the floor of a float, for
    [floor(max_tokens * (1 - response_ratio))] computed in the arithmetic of
    the language; an infinity or a NaN has no floor. *)
Definition floor_of_float (x : float) : result Z :=
  match x with
  | S754_zero _ => Ok 0
  | S754_finite s m e => Ok (Z.shiftl (cond_Zopp s (Zpos m)) e)
  | S754_infinity _ => Raise OverflowError
  | S754_nan => Raise (ValueError "cannot convert float NaN to integer")
  end.

Definition InvalidConfiguration : exn :=
  ValueError "response_ratio must be between 0 and 1.".

Definition in_open_unit_interval (ratio : float) : bool :=
  SFltb float_zero ratio && SFltb ratio float_one.

(** Continuity extractor: walk the words from the end backward, keep a
    word while the running estimate stays within the bound, stop at the
    first word that would exceed it; the kept words come out in their
    original order. *)
Fixpoint keep_backward (max_tail_tokens running : Z) (backward : list str)
  : list str :=
  match backward with
  | [] => []
  | word :: earlier =>
      if running + _count_tokens word <=? max_tail_tokens then
        keep_backward max_tail_tokens (running + _count_tokens word) earlier
          ++ [word]
      else []
  end.

Definition extract_tail (response_text : str) (max_tail_tokens : Z) : str :=
  join [SP] (keep_backward max_tail_tokens 0 (rev (str_split response_text))).

(** Whitespace normalization: every maximal whitespace run becomes one
    space, then leading and trailing whitespace goes. *)
Fixpoint collapse_from (in_run : bool) (text : str) : str :=
  match text with
  | [] => []
  | c :: rest =>
      if is_space c then
        if in_run then collapse_from true rest
        else SP :: collapse_from true rest
      else c :: collapse_from false rest
  end.

Definition collapse (text : str) : str := collapse_from false text.

Fixpoint lstrip (text : str) : str :=
  match text with
  | [] => []
  | c :: rest => if is_space c then lstrip rest else text
  end.

Definition rstrip (text : str) : str := rev (lstrip (rev text)).

Definition trim (text : str) : str := rstrip (lstrip text).

Definition normalize (text : str) : str := trim (collapse text).

(** A single atomic word: not empty and free of whitespace. *)
Definition single_word (text : str) : bool :=
  match text with
  | [] => false
  | _ => forallb (fun c => negb (is_space c)) text
  end.

(** A response document from which an expected field is absent, for the
    chat call: no ["choices"], or a first choice without ["message"], or
    a message without ["content"]. *)
Definition chat_field_missing (response_data : json) : bool :=
  match response_data with
  | JDict fields =>
      match lookup "choices" fields with
      | None => true
      | Some (JList (JDict choice :: _)) =>
          match lookup "message" choice with
          | None => true
          | Some (JDict message) =>
              match lookup "content" message with
              | None => true
              | Some _ => false
              end
          | Some _ => false
          end
      | Some _ => false
      end
  | _ => false
  end.

(** The same for the embedding call: no ["data"], or a first datum
    without ["embedding"]. *)
Definition embedding_field_missing (response_data : json) : bool :=
  match response_data with
  | JDict fields =>
      match lookup "data" fields with
      | None => true
      | Some (JList (JDict datum :: _)) =>
          match lookup "embedding" datum with
          | None => true
          | Some _ => false
          end
      | Some _ => false
      end
  | _ => false
  end.

End Spec.

(** ** Definitions used to state and prove the properties *)

Definition no_space (text : str) : bool :=
  forallb (fun c => negb (is_space c)) text.

(** A chunk is within budget, or is one oversized atomic word. *)
Definition chunk_ok (budget : Z) (chunk : str) : Prop :=
  _count_tokens chunk <= budget
  \/ (Spec.single_word chunk = true /\ _count_tokens chunk > budget).

(** What the loop of the splitter maintains: closed chunks are fine, the
    counter is the token count of the pending pieces, and the pending chunk
    is within budget unless it is one oversized word. *)
Definition budget_inv (budget : Z) (st : split_state) : Prop :=
  Forall (chunk_ok budget) (chunks st)
  /\ current_token_count st = sum (map _count_tokens (current_chunk st))
  /\ (current_token_count st <= budget
      \/ exists w, current_chunk st = [w]
                   /\ Spec.single_word w = true /\ _count_tokens w > budget).

Definition words_of (st : split_state) : list str :=
  List.concat (map str_split (chunks st))
  ++ List.concat (map str_split (current_chunk st)).

Fixpoint ends_space (text : str) : bool :=
  match text with
  | [] => false
  | c :: rest =>
      match rest with
      | [] => is_space c
      | _ => ends_space rest
      end
  end.

Definition trailing (text : str) : str :=
  if ends_space text then [SP] else [].

(** Once an oversized word [w] is pending behind the closed chunks [pre],
    it is closed alone by whatever comes next. *)
Definition seeded (budget : Z) (pre : list str) (w : str) (st : split_state)
  : Prop :=
  (chunks st = pre /\ current_chunk st = [w] /\ current_token_count st > budget)
  \/ exists more, chunks st = pre ++ w :: more.

Definition chat_reply (content : str) : json :=
  let message := JDict [ ("content"%string, JStr content) ] in
  let choice := JDict [ ("message"%string, message) ] in
  JDict [ ("choices"%string, JList [ choice ]) ].

Definition embedding_reply (vector : list json) : json :=
  let datum := JDict [ ("embedding"%string, JList vector) ] in
  JDict [ ("data"%string, JList [ datum ]) ].

(** Answers the first call with [first] and every later call with the
    prompt it was sent, so the prompts of a run can be read off its result. *)
Definition echo_post (first : str) : transport :=
  fun calls prompt _ =>
    match calls with
    | O => Ok (chat_reply first)
    | S _ => Ok (chat_reply prompt)
    end.

Definition constant_post (reply : json) : transport :=
  fun _ _ _ => Ok reply.

(** The ratio [0.75] and a chat processor built from it:
    [int(20 * (1 - 0.75)) = 5]. *)
Definition three_quarters : float :=
  SFdiv prec emax (binary_normalize prec emax 3 0 false)
    (binary_normalize prec emax 4 0 false).

Definition small_chat : BaseAIProcessor :=
  {| max_tokens := 20; response_ratio := Some three_quarters; chunk_size := 5 |}.

Definition two_lines : str :=
  lit "one two three" ++ [LF] ++ lit "four five six".

Definition example_prompts : Chat.prompts :=
  {| Chat.initial := lit "Go";
     Chat.follow_up_template := lit "Next {last_chunk_end}" |}.

(** The ratio [0.3]: the float nearest to three tenths. *)
Definition three_tenths : float :=
  SFdiv prec emax (binary_normalize prec emax 3 0 false)
    (binary_normalize prec emax 10 0 false).

(** The sign bit of a finite non-zero float is clear. *)
Definition sign_clear (x : float) : Prop :=
  match x with
  | S754_finite s _ _ => s = false
  | _ => True
  end.

(** A float that is zero, or finite with its exponent at most [bound]. *)
Definition within (bound : Z) (x : float) : Prop :=
  match x with
  | S754_zero _ => True
  | S754_finite _ m e => e <= bound /\ Zpos m < 2 ^ 53
  | _ => False
  end.

(** Every two neighbouring chunks together count more than [budget]. *)
Fixpoint adjacent_over (budget : Z) (cs : list str) : Prop :=
  match cs with
  | [] => True
  | a :: rest =>
      match rest with
      | [] => True
      | b :: _ => _count_tokens a + _count_tokens b > budget
      end
      /\ adjacent_over budget rest
  end.

(** A value [len()] accepts and the debug line of the chat call can
    truncate: a string, a list, or a dict of at most 50 entries. *)
Definition loggable (value : json) : Prop :=
  match value with
  | JStr _ | JList _ => True
  | JDict fields => len fields <= 50
  | _ => False
  end.

(** * Properties *)

(** ** Characters *)

Lemma space_is_not_word (c : ascii) : is_space c = true -> is_word c = false.
Proof.
  destruct c as [[] [] [] [] [] [] [] []]; vm_compute; intro H;
    first [reflexivity | discriminate H].
Qed.

Lemma linebreak_is_space (c : ascii) : is_linebreak c = true -> is_space c = true.
Proof.
  destruct c as [[] [] [] [] [] [] [] []]; vm_compute; intro H;
    first [reflexivity | discriminate H].
Qed.

Lemma SP_is_space : is_space SP = true.
Proof. reflexivity. Qed.

(** ** The examples of the test suite *)

Example count_tokens_hello_world : _count_tokens (lit "hello world") = 2.
Proof. reflexivity. Qed.

Example count_tokens_empty : _count_tokens (lit "") = 0.
Proof. reflexivity. Qed.

Example count_tokens_this_is_a_test : _count_tokens (lit "This is a test") = 4.
Proof. reflexivity. Qed.

Example splitlines_examples :
  str_splitlines (lit "") = []
  /\ str_splitlines [LF] = [ [] ]
  /\ str_splitlines (lit "a" ++ [CR; LF] ++ lit "b" ++ [LF]) = [lit "a"; lit "b"]
  /\ str_splitlines (lit "a" ++ [LF; CR] ++ lit "b") = [lit "a"; []; lit "b"].
Proof. repeat split; reflexivity. Qed.

Example split_example :
  str_split (lit "  This is   a test ")
  = [lit "This"; lit "is"; lit "a"; lit "test"].
Proof. reflexivity. Qed.

Example normalize_example :
  Spec.normalize (lit "  This is " ++ [CR; LF] ++ lit "  a test ")
  = lit "This is a test".
Proof. reflexivity. Qed.

Example split_into_chunks_empty_context (self : BaseAIProcessor) :
  chunk_size self = 140 -> _split_into_chunks self [] [] true = Ok [].
Proof. unfold _split_into_chunks, effective_budget. intros ->. reflexivity. Qed.

Example test_fixture_init :
  init 200 (Some three_tenths)
  = Ok {| max_tokens := 200; response_ratio := Some three_tenths;
          chunk_size := 140 |}.
Proof. vm_compute. reflexivity. Qed.

Example process_with_small_context :
  Chat.process
    {| max_tokens := 200; response_ratio := Some three_tenths;
       chunk_size := 140 |}
    (constant_post (chat_reply (lit "Mock response"))) format_plain
    (lit "Hi!")
    {| Chat.initial := lit "Start the chat:";
       Chat.follow_up_template := lit "Continue with {last_chunk_end}" |}
    None
  = Ok {| Chat.status := "success";
          Chat.chunks :=
            [ {| Chat.index := 1;
                 Chat.input_text := lit "Hi!";
                 Chat.response_text := JStr (lit "Mock response") |} ] |}.
Proof. vm_compute. reflexivity. Qed.

(** ** Token counts *)

Lemma sum_app (l1 l2 : list Z) : sum (l1 ++ l2) = sum l1 + sum l2.
Proof.
  induction l1 as [|x l1 IH]; simpl; [reflexivity | rewrite IH; lia].
Qed.

Lemma token_cost_pos (t : str) : 1 <= token_cost t.
Proof. unfold token_cost; lia. Qed.

Lemma count_tokens_nonneg (text : str) : 0 <= _count_tokens text.
Proof.
  unfold _count_tokens.
  induction (findall text) as [|t ts IH]; simpl; [lia|].
  pose proof (token_cost_pos t); lia.
Qed.

Lemma findall_from_break (a b : str) (c : ascii) :
  is_word c = false ->
  forall run,
    findall_from run (a ++ c :: b)
    = findall_from run a ++ findall_from [] (c :: b).
Proof.
  intros Hc.
  induction a as [|x a IH]; intros run; simpl.
  - rewrite Hc. reflexivity.
  - destruct (is_word x).
    + apply IH.
    + rewrite IH. rewrite <- !app_assoc. reflexivity.
Qed.

Lemma count_tokens_app_space (a b : str) (c : ascii) :
  is_space c = true ->
  _count_tokens (a ++ c :: b) = _count_tokens a + _count_tokens b.
Proof.
  intros Hs. unfold _count_tokens, findall.
  rewrite (findall_from_break a b c (space_is_not_word c Hs)).
  rewrite map_app, sum_app. simpl.
  rewrite (space_is_not_word c Hs), Hs. reflexivity.
Qed.

Lemma count_tokens_join (items : list str) :
  _count_tokens (join [SP] items) = sum (map _count_tokens items).
Proof.
  induction items as [|x [|y rest] IH].
  - reflexivity.
  - simpl. lia.
  - change (join [SP] (x :: y :: rest)) with (x ++ SP :: join [SP] (y :: rest)).
    rewrite (count_tokens_app_space _ _ SP SP_is_space), IH. reflexivity.
Qed.

(** ** Words and lines *)

Lemma split_from_break (a b : str) (c : ascii) :
  is_space c = true ->
  forall run,
    split_from run (a ++ c :: b) = split_from run a ++ split_from [] b.
Proof.
  intros Hc.
  induction a as [|x a IH]; intros run; simpl.
  - rewrite Hc. reflexivity.
  - destruct (is_space x).
    + rewrite IH, app_assoc. reflexivity.
    + apply IH.
Qed.

Lemma str_split_app_space (a b : str) (c : ascii) :
  is_space c = true ->
  str_split (a ++ c :: b) = str_split a ++ str_split b.
Proof. intros Hc. apply split_from_break, Hc. Qed.

Lemma str_split_join (items : list str) :
  str_split (join [SP] items) = List.concat (map str_split items).
Proof.
  induction items as [|x [|y rest] IH].
  - reflexivity.
  - simpl. rewrite app_nil_r. reflexivity.
  - change (join [SP] (x :: y :: rest)) with (x ++ SP :: join [SP] (y :: rest)).
    rewrite (str_split_app_space _ _ SP SP_is_space), IH. reflexivity.
Qed.

Lemma single_word_no_space (w : str) :
  Spec.single_word w = true <-> w <> [] /\ no_space w = true.
Proof.
  destruct w as [|c w]; simpl.
  - split; [discriminate | intros [H _]; congruence].
  - split; [intros H; split; [discriminate | exact H] | intros [_ H]; exact H].
Qed.

Lemma no_space_rev (run : str) : no_space (rev run) = no_space run.
Proof.
  unfold no_space. induction run as [|c run IH]; simpl; [reflexivity|].
  rewrite forallb_app, IH. simpl. rewrite andb_true_r, andb_comm. reflexivity.
Qed.

Lemma flush_single_words (run : str) :
  no_space run = true -> Forall (fun w => Spec.single_word w = true) (flush run).
Proof.
  intros H. destruct run as [|c run]; simpl; [constructor|].
  constructor; [|constructor].
  apply single_word_no_space. split.
  - intros E. apply (f_equal (@List.length ascii)) in E.
    rewrite length_app in E. simpl in E. lia.
  - change (rev run ++ [c]) with (rev (c :: run)). rewrite no_space_rev. exact H.
Qed.

Lemma split_from_single_words (text : str) :
  forall run, no_space run = true ->
    Forall (fun w => Spec.single_word w = true) (split_from run text).
Proof.
  induction text as [|c text IH]; intros run Hrun; simpl.
  - apply flush_single_words, Hrun.
  - destruct (is_space c) eqn:Hc.
    + apply Forall_app. split; [apply flush_single_words, Hrun | apply IH; reflexivity].
    + apply IH. simpl. rewrite Hc. exact Hrun.
Qed.

Lemma str_split_single_words (text : str) :
  Forall (fun w => Spec.single_word w = true) (str_split text).
Proof. apply split_from_single_words. reflexivity. Qed.

Lemma split_from_no_space (w : str) :
  no_space w = true -> forall run, split_from run w = flush (rev w ++ run).
Proof.
  induction w as [|c w IH]; intros H run; simpl in *.
  - reflexivity.
  - apply andb_true_iff in H as [Hc Hw].
    apply negb_true_iff in Hc. rewrite Hc, (IH Hw), <- app_assoc. reflexivity.
Qed.

Lemma str_split_single_word (w : str) :
  Spec.single_word w = true -> str_split w = [w].
Proof.
  intros H. apply single_word_no_space in H as [Hne Hns].
  unfold str_split. rewrite (split_from_no_space w Hns), app_nil_r.
  destruct (rev w) as [|c r] eqn:E.
  - apply (f_equal (@rev ascii)) in E. rewrite rev_involutive in E. contradiction.
  - simpl. f_equal. rewrite <- (rev_involutive w), E. reflexivity.
Qed.

Lemma concat_split_words (ws : list str) :
  Forall (fun w => Spec.single_word w = true) ws ->
  List.concat (map str_split ws) = ws.
Proof.
  induction 1 as [|w ws Hw _ IH]; simpl; [reflexivity|].
  rewrite (str_split_single_word w Hw), IH. reflexivity.
Qed.

Lemma splitlines_from_words_bounded (n : nat) :
  forall text, (List.length text <= n)%nat ->
  forall run,
    List.concat (map str_split (splitlines_from run text))
    = str_split (rev run ++ text).
Proof.
  induction n as [|n IH]; intros text Hlen run.
  - destruct text; [|simpl in Hlen; lia].
    simpl. rewrite app_nil_r. destruct run; simpl; [reflexivity|].
    rewrite app_nil_r. reflexivity.
  - destruct text as [|c text].
    { simpl. rewrite app_nil_r. destruct run; simpl; [reflexivity|].
      rewrite app_nil_r. reflexivity. }
    simpl in Hlen. cbn [splitlines_from].
    destruct (is_linebreak c) eqn:Hlb.
    + pose proof (linebreak_is_space c Hlb) as Hsp.
      rewrite (str_split_app_space _ _ c Hsp).
      destruct text as [|c' text'].
      * cbn [map List.concat]. change (str_split []) with (@nil str).
        reflexivity.
      * simpl in Hlen.
        destruct (Ascii.eqb c CR && Ascii.eqb c' LF)%bool eqn:Hcrlf.
        -- apply andb_true_iff in Hcrlf as [_ Hlf].
           apply Ascii.eqb_eq in Hlf. subst c'.
           cbn [map List.concat]. f_equal.
           rewrite (IH text' ltac:(lia) []).
           symmetry. apply (str_split_app_space [] text' LF). reflexivity.
        -- cbn [map List.concat]. f_equal.
           apply (IH (c' :: text') ltac:(simpl; lia) []).
    + rewrite (IH text ltac:(lia) (c :: run)). simpl.
      rewrite <- app_assoc. reflexivity.
Qed.

Lemma str_splitlines_words (text : str) :
  List.concat (map str_split (str_splitlines text)) = str_split text.
Proof.
  apply (splitlines_from_words_bounded (List.length text) text (le_n _) []).
Qed.

(** ** The splitter: token budget of every chunk *)

Section Budget.

Variable budget : Z.

Lemma pending_chunk_ok (st : split_state) :
  budget_inv budget st -> chunk_ok budget (join [SP] (current_chunk st)).
Proof.
  intros (_ & Hcount & [Hle | (w & Hw & Hsingle & Hbig)]).
  - left. rewrite count_tokens_join, <- Hcount. exact Hle.
  - right. rewrite Hw. simpl. split; assumption.
Qed.

Lemma sum_counts_snoc (pieces : list str) (piece : str) :
  sum (map _count_tokens (pieces ++ [piece]))
  = sum (map _count_tokens pieces) + _count_tokens piece.
Proof. rewrite map_app, sum_app. simpl. lia. Qed.

Lemma word_step_inv (st : split_state) (word : str) :
  Spec.single_word word = true ->
  budget_inv budget st -> budget_inv budget (word_step budget st word).
Proof.
  intros Hword Hinv. pose proof (pending_chunk_ok st Hinv) as Hpending.
  destruct Hinv as (Hchunks & Hcount & Hcur).
  unfold word_step.
  destruct (current_token_count st + _count_tokens word >? budget) eqn:Hcmp.
  - repeat split; cbn [chunks current_chunk current_token_count].
    + apply Forall_app. split; [exact Hchunks | constructor; [exact Hpending | constructor]].
    + simpl. lia.
    + destruct (Z_le_gt_dec (_count_tokens word) budget) as [Hle | Hgt].
      * left. exact Hle.
      * right. exists word. repeat split; assumption.
  - repeat split; cbn [chunks current_chunk current_token_count].
    + exact Hchunks.
    + rewrite sum_counts_snoc, Hcount. reflexivity.
    + left. lia.
Qed.

Lemma words_fold_inv (words : list str) :
  Forall (fun w => Spec.single_word w = true) words ->
  forall st, budget_inv budget st ->
             budget_inv budget (fold_left (word_step budget) words st).
Proof.
  induction 1 as [|w ws Hw _ IH]; intros st Hinv; simpl; [exact Hinv|].
  apply IH, word_step_inv; assumption.
Qed.

Lemma line_step_inv (st : split_state) (line : str) :
  budget_inv budget st -> budget_inv budget (line_step budget st line).
Proof.
  intros Hinv. unfold line_step.
  destruct (_count_tokens line >? budget) eqn:Hline.
  - apply words_fold_inv; [apply str_split_single_words | exact Hinv].
  - pose proof (pending_chunk_ok st Hinv) as Hpending.
    destruct Hinv as (Hchunks & Hcount & Hcur).
    destruct (current_token_count st + _count_tokens line >? budget) eqn:Hcmp.
    + repeat split; cbn [chunks current_chunk current_token_count].
      * apply Forall_app. split; [exact Hchunks | constructor; [exact Hpending | constructor]].
      * simpl. lia.
      * left. lia.
    + repeat split; cbn [chunks current_chunk current_token_count].
      * exact Hchunks.
      * rewrite sum_counts_snoc, Hcount. reflexivity.
      * left. lia.
Qed.

Lemma lines_fold_inv (lines : list str) :
  forall st, budget_inv budget st ->
             budget_inv budget (fold_left (line_step budget) lines st).
Proof.
  induction lines as [|l ls IH]; intros st Hinv; simpl; [exact Hinv|].
  apply IH, line_step_inv, Hinv.
Qed.

Lemma split_start_inv : 0 < budget -> budget_inv budget split_start.
Proof.
  intros Hpos. split; [constructor | split; [reflexivity | left; simpl; lia]].
Qed.

Lemma split_finish_ok (st : split_state) :
  budget_inv budget st -> Forall (chunk_ok budget) (split_finish st).
Proof.
  intros Hinv. pose proof (pending_chunk_ok st Hinv) as Hpending.
  destruct Hinv as (Hchunks & _). unfold split_finish.
  destruct (current_chunk st); [exact Hchunks|].
  apply Forall_app. split; [exact Hchunks | constructor; [exact Hpending | constructor]].
Qed.

End Budget.

Lemma split_into_chunks_ok (self : BaseAIProcessor) (context last_chunk_end : str)
    (include_last_chunk : bool) (cs : list str) :
  _split_into_chunks self context last_chunk_end include_last_chunk = Ok cs ->
  0 < effective_budget self last_chunk_end include_last_chunk
  /\ cs = split_finish
            (fold_left
               (line_step (effective_budget self last_chunk_end include_last_chunk))
               (str_splitlines context) split_start).
Proof.
  unfold _split_into_chunks.
  destruct (effective_budget self last_chunk_end include_last_chunk <=? 0) eqn:H;
    intros E; [discriminate E|].
  apply Z.leb_gt in H. injection E as <-. split; [exact H | reflexivity].
Qed.

Lemma split_into_chunks_returns (self : BaseAIProcessor)
    (context last_chunk_end : str) (include_last_chunk : bool) :
  0 < effective_budget self last_chunk_end include_last_chunk ->
  _split_into_chunks self context last_chunk_end include_last_chunk
  = Ok (split_finish
          (fold_left
             (line_step (effective_budget self last_chunk_end include_last_chunk))
             (str_splitlines context) split_start)).
Proof.
  intros Hpos. unfold _split_into_chunks.
  destruct (effective_budget self last_chunk_end include_last_chunk <=? 0)
    eqn:Hcmp; [apply Z.leb_le in Hcmp; lia | reflexivity].
Qed.

(** ** The splitter: the words of the text are kept, in order *)

Section Words.

Variable budget : Z.

Lemma concat_split_snoc (pieces : list str) (piece : str) :
  List.concat (map str_split (pieces ++ [piece]))
  = List.concat (map str_split pieces) ++ str_split piece.
Proof. rewrite map_app, concat_app. simpl. rewrite app_nil_r. reflexivity. Qed.

Lemma step_words (st : split_state) (piece : str) (overflow : bool) :
  words_of
    (if overflow then
       {| chunks := chunks st ++ [join [SP] (current_chunk st)];
          current_chunk := [piece];
          current_token_count := _count_tokens piece |}
     else
       {| chunks := chunks st;
          current_chunk := current_chunk st ++ [piece];
          current_token_count := current_token_count st + _count_tokens piece |})
  = words_of st ++ str_split piece.
Proof.
  unfold words_of. destruct overflow; cbn [chunks current_chunk].
  - rewrite concat_split_snoc, str_split_join. simpl.
    rewrite app_nil_r, <- app_assoc. reflexivity.
  - rewrite concat_split_snoc, app_assoc. reflexivity.
Qed.

Lemma word_step_words (st : split_state) (word : str) :
  words_of (word_step budget st word) = words_of st ++ str_split word.
Proof. unfold word_step. apply step_words. Qed.

Lemma words_fold_words (words : list str) :
  forall st,
    words_of (fold_left (word_step budget) words st)
    = words_of st ++ List.concat (map str_split words).
Proof.
  induction words as [|w ws IH]; intros st; simpl.
  - rewrite app_nil_r. reflexivity.
  - rewrite IH, word_step_words, app_assoc. reflexivity.
Qed.

Lemma line_step_words (st : split_state) (line : str) :
  words_of (line_step budget st line) = words_of st ++ str_split line.
Proof.
  unfold line_step. destruct (_count_tokens line >? budget).
  - rewrite words_fold_words.
    rewrite (concat_split_words _ (str_split_single_words line)). reflexivity.
  - apply step_words.
Qed.

Lemma lines_fold_words (lines : list str) :
  forall st,
    words_of (fold_left (line_step budget) lines st)
    = words_of st ++ List.concat (map str_split lines).
Proof.
  induction lines as [|l ls IH]; intros st; simpl.
  - rewrite app_nil_r. reflexivity.
  - rewrite IH, line_step_words, app_assoc. reflexivity.
Qed.

Lemma split_finish_words (st : split_state) :
  List.concat (map str_split (split_finish st)) = words_of st.
Proof.
  unfold split_finish, words_of. destruct (current_chunk st) as [|p ps] eqn:E.
  - simpl. rewrite app_nil_r. reflexivity.
  - rewrite concat_split_snoc, str_split_join. reflexivity.
Qed.

End Words.

Lemma split_keeps_words (self : BaseAIProcessor) (context last_chunk_end : str)
    (include_last_chunk : bool) (cs : list str) :
  _split_into_chunks self context last_chunk_end include_last_chunk = Ok cs ->
  str_split (join [SP] cs) = str_split context.
Proof.
  intros H. apply split_into_chunks_ok in H as [_ ->].
  rewrite str_split_join, split_finish_words, lines_fold_words.
  simpl. apply str_splitlines_words.
Qed.

(** ** Whitespace normalization is the words joined by single spaces *)

Lemma flush_nonempty (run : str) : run <> [] -> flush run = [rev run].
Proof. destruct run; [congruence | reflexivity]. Qed.

Lemma split_from_nonempty (text : str) :
  forall run, run <> [] -> split_from run text <> [].
Proof.
  induction text as [|c text IH]; intros run Hrun; simpl.
  - rewrite (flush_nonempty run Hrun). discriminate.
  - destruct (is_space c).
    + rewrite (flush_nonempty run Hrun). discriminate.
    + apply IH. discriminate.
Qed.

Lemma no_words_ends_space (text : str) :
  split_from [] text = [] -> text = [] \/ ends_space text = true.
Proof.
  induction text as [|c text IH]; intros H; [left; reflexivity|].
  right. simpl in H. destruct (is_space c) eqn:Hc.
  - simpl in H. destruct (IH H) as [-> | He].
    + simpl. exact Hc.
    + destruct text; [discriminate He | exact He].
  - exfalso. apply (split_from_nonempty text [c]); [discriminate | exact H].
Qed.

Lemma ends_space_cons (c : ascii) (text : str) :
  text <> [] -> ends_space (c :: text) = ends_space text.
Proof. destruct text; [congruence | reflexivity]. Qed.

Lemma trailing_cons_word (c : ascii) (text : str) :
  is_space c = false -> trailing (c :: text) = trailing text.
Proof.
  intros Hc. unfold trailing. destruct text as [|d text].
  - simpl. rewrite Hc. reflexivity.
  - reflexivity.
Qed.

Lemma join_cons2 (x y : str) (rest : list str) :
  join [SP] (x :: y :: rest) = x ++ SP :: join [SP] (y :: rest).
Proof. reflexivity. Qed.

Lemma collapse_words (text : str) :
  (forall run, run <> [] ->
     rev run ++ Spec.collapse_from false text
     = join [SP] (split_from run text) ++ trailing text)
  /\ Spec.collapse_from true text
     = join [SP] (split_from [] text)
         ++ match split_from [] text with
            | [] => []
            | _ => trailing text
            end.
Proof.
  induction text as [|c text [IH1 IH2]].
  - split.
    + intros run Hrun. simpl. rewrite (flush_nonempty run Hrun). reflexivity.
    + reflexivity.
  - destruct (is_space c) eqn:Hc.
    + split.
      * intros run Hrun. simpl. rewrite Hc, IH2, (flush_nonempty run Hrun).
        destruct (split_from [] text) as [|w ws] eqn:Hws.
        -- simpl. unfold trailing.
           destruct (no_words_ends_space text Hws) as [-> | He].
           ++ simpl. rewrite Hc. reflexivity.
           ++ rewrite ends_space_cons, He; [reflexivity|].
              intros ->. discriminate He.
        -- cbn [app]. rewrite join_cons2, <- app_assoc. cbn [app].
           unfold trailing. rewrite ends_space_cons; [reflexivity|].
           intros ->. discriminate Hws.
      * simpl. rewrite Hc, IH2. simpl.
        destruct (split_from [] text) as [|w ws] eqn:Hws; [reflexivity|].
        unfold trailing. rewrite ends_space_cons; [reflexivity|].
        intros ->. discriminate Hws.
    + split.
      * intros run Hrun. simpl. rewrite Hc.
        rewrite (trailing_cons_word c text Hc), <- (IH1 (c :: run)) by discriminate.
        simpl. rewrite <- app_assoc. reflexivity.
      * simpl. rewrite Hc.
        pose proof (IH1 [c] ltac:(discriminate)) as H1. simpl in H1. rewrite H1.
        rewrite (trailing_cons_word c text Hc).
        destruct (split_from [c] text) eqn:Hws; [|reflexivity].
        exfalso. apply (split_from_nonempty text [c]); [discriminate | exact Hws].
Qed.

Lemma lstrip_collapse (text : str) :
  forall in_run, Spec.lstrip (Spec.collapse_from in_run text)
                 = Spec.collapse_from true text.
Proof.
  induction text as [|c text IH]; intros in_run; simpl; [reflexivity|].
  destruct (is_space c) eqn:Hc.
  - destruct in_run; simpl; apply IH.
  - simpl. rewrite Hc. reflexivity.
Qed.

Lemma rstrip_snoc_space (text : str) :
  Spec.rstrip (text ++ [SP]) = Spec.rstrip text.
Proof. unfold Spec.rstrip. rewrite rev_app_distr. reflexivity. Qed.

Lemma rstrip_snoc_word (text : str) (c : ascii) :
  is_space c = false -> Spec.rstrip (text ++ [c]) = text ++ [c].
Proof.
  intros Hc. unfold Spec.rstrip. rewrite rev_app_distr. simpl. rewrite Hc.
  simpl. rewrite rev_involutive. reflexivity.
Qed.

Lemma join_words_last (ws : list str) :
  Forall (fun w => Spec.single_word w = true) ws -> ws <> [] ->
  exists text c, join [SP] ws = text ++ [c] /\ is_space c = false.
Proof.
  induction 1 as [|w ws Hw Hws IH]; intros Hne; [congruence|].
  destruct ws as [|w2 ws].
  - apply single_word_no_space in Hw as [Hw Hns].
    destruct (exists_last Hw) as (text & c & ->).
    exists text, c. split; [reflexivity|].
    unfold no_space in Hns. rewrite forallb_app in Hns.
    apply andb_true_iff in Hns as [_ Hc]. simpl in Hc.
    rewrite andb_true_r in Hc. apply negb_true_iff in Hc. exact Hc.
  - destruct (IH ltac:(discriminate)) as (text & c & E & Hc).
    exists (w ++ SP :: text), c. split; [|exact Hc].
    rewrite join_cons2, E, <- app_assoc. reflexivity.
Qed.

Lemma rstrip_join_words (ws : list str) :
  Forall (fun w => Spec.single_word w = true) ws ->
  Spec.rstrip (join [SP] ws) = join [SP] ws.
Proof.
  intros H. destruct ws as [|w ws]; [reflexivity|].
  destruct (join_words_last _ H ltac:(discriminate)) as (text & c & -> & Hc).
  apply rstrip_snoc_word, Hc.
Qed.

Lemma normalize_words (text : str) :
  Spec.normalize text = join [SP] (str_split text).
Proof.
  unfold Spec.normalize, Spec.trim, Spec.collapse.
  rewrite lstrip_collapse.
  destruct (collapse_words text) as [_ ->].
  fold (str_split text).
  pose proof (str_split_single_words text) as Hws.
  destruct (str_split text) as [|w ws] eqn:E.
  - reflexivity.
  - unfold trailing. destruct (ends_space text).
    + rewrite rstrip_snoc_space. apply rstrip_join_words, Hws.
    + rewrite app_nil_r. apply rstrip_join_words, Hws.
Qed.

(** ** The splitter: the empty chunk in front of an oversized first word *)

Section Seeded.

Variable budget : Z.
Variable pre : list str.
Variable w : str.

Lemma close_seeded (st : split_state) (piece : str) :
  seeded budget pre w st ->
  seeded budget pre w
    {| chunks := chunks st ++ [join [SP] (current_chunk st)];
       current_chunk := [piece];
       current_token_count := _count_tokens piece |}.
Proof.
  intros [(Hc & Hcur & _) | (more & Hc)]; right; cbn [chunks].
  - exists []. rewrite Hc, Hcur. reflexivity.
  - exists (more ++ [join [SP] (current_chunk st)]).
    rewrite Hc, <- app_assoc. reflexivity.
Qed.

Lemma extend_seeded (st : split_state) (piece : str) :
  current_token_count st + _count_tokens piece <= budget ->
  seeded budget pre w st ->
  seeded budget pre w
    {| chunks := chunks st;
       current_chunk := current_chunk st ++ [piece];
       current_token_count := current_token_count st + _count_tokens piece |}.
Proof.
  intros Hfit [(_ & _ & Hbig) | (more & Hc)].
  - pose proof (count_tokens_nonneg piece). lia.
  - right. exists more. exact Hc.
Qed.

Lemma word_step_seeded (st : split_state) (word : str) :
  seeded budget pre w st -> seeded budget pre w (word_step budget st word).
Proof.
  intros H. unfold word_step.
  destruct (current_token_count st + _count_tokens word >? budget) eqn:Hcmp.
  - apply close_seeded, H.
  - apply extend_seeded; [lia | exact H].
Qed.

Lemma words_fold_seeded (words : list str) :
  forall st, seeded budget pre w st ->
             seeded budget pre w (fold_left (word_step budget) words st).
Proof.
  induction words as [|x xs IH]; intros st H; simpl; [exact H|].
  apply IH, word_step_seeded, H.
Qed.

Lemma line_step_seeded (st : split_state) (line : str) :
  seeded budget pre w st -> seeded budget pre w (line_step budget st line).
Proof.
  intros H. unfold line_step.
  destruct (_count_tokens line >? budget).
  - apply words_fold_seeded, H.
  - destruct (current_token_count st + _count_tokens line >? budget) eqn:Hcmp.
    + apply close_seeded, H.
    + apply extend_seeded; [lia | exact H].
Qed.

Lemma lines_fold_seeded (lines : list str) :
  forall st, seeded budget pre w st ->
             seeded budget pre w (fold_left (line_step budget) lines st).
Proof.
  induction lines as [|l ls IH]; intros st H; simpl; [exact H|].
  apply IH, line_step_seeded, H.
Qed.

Lemma split_finish_seeded (st : split_state) :
  seeded budget pre w st -> exists more, split_finish st = pre ++ w :: more.
Proof.
  unfold split_finish. intros [(Hc & Hcur & _) | (more & Hc)].
  - rewrite Hcur, Hc. exists []. reflexivity.
  - destruct (current_chunk st).
    + exists more. exact Hc.
    + eexists. rewrite Hc, <- app_assoc. reflexivity.
Qed.

End Seeded.

(** ** Claims about the helpers of [BaseAIProcessor] *)

(** C4. When the effective budget is positive the splitter returns, and
    every chunk it returns counts at most the effective budget in tokens,
    unless the chunk is one atomic word that is itself over the budget. *)
Theorem split_chunks_within_budget (self : BaseAIProcessor)
    (context last_chunk_end : str) (include_last_chunk : bool) :
  0 < effective_budget self last_chunk_end include_last_chunk ->
  exists cs,
    _split_into_chunks self context last_chunk_end include_last_chunk = Ok cs
    /\ Forall
         (fun chunk =>
            _count_tokens chunk
            <= effective_budget self last_chunk_end include_last_chunk
            \/ (Spec.single_word chunk = true
                /\ _count_tokens chunk
                   > effective_budget self last_chunk_end include_last_chunk))
         cs.
Proof.
  intros Hpos. eexists. split; [apply split_into_chunks_returns, Hpos|].
  apply split_finish_ok, lines_fold_inv, split_start_inv, Hpos.
Qed.

Lemma split_chunks_within_budget_witness :
  let self := {| max_tokens := 200; response_ratio := None; chunk_size := 2 |} in
  exists cs,
    _split_into_chunks self (lit "ab cd ef abcdefghijklmno gh") (lit "x") true
    = Ok cs
    /\ Forall
         (fun chunk =>
            _count_tokens chunk <= 1
            \/ (Spec.single_word chunk = true /\ _count_tokens chunk > 1))
         cs.
Proof.
  exact (split_chunks_within_budget
           {| max_tokens := 200; response_ratio := None; chunk_size := 2 |}
           (lit "ab cd ef abcdefghijklmno gh") (lit "x") true
           ltac:(vm_compute; reflexivity)).
Defined.

(** C5. When the budget is positive, the chunks of [split(T, "", false)]
    joined by single spaces equal [T] after whitespace normalization, and
    the empty text gives no chunk at all. *)
Theorem split_join_normalizes (self : BaseAIProcessor) (T : str) :
  0 < chunk_size self ->
  exists cs,
    _split_into_chunks self T [] false = Ok cs
    /\ Spec.normalize (join [SP] cs) = Spec.normalize T
    /\ (T = [] -> cs = []).
Proof.
  intros Hpos.
  pose proof (split_into_chunks_returns self T [] false Hpos) as Hcs.
  eexists. split; [exact Hcs | split].
  - rewrite !normalize_words. f_equal. apply (split_keeps_words _ _ _ _ _ Hcs).
  - intros ->. reflexivity.
Qed.

Lemma split_join_normalizes_witness :
  exists cs,
    _split_into_chunks
      {| max_tokens := 200; response_ratio := None; chunk_size := 2 |}
      (lit "  ab   cd" ++ [CR; LF] ++ lit "abcdefghijklmno  gh" ++ [LF]) [] false
    = Ok cs
    /\ Spec.normalize (join [SP] cs)
       = Spec.normalize
           (lit "  ab   cd" ++ [CR; LF] ++ lit "abcdefghijklmno  gh" ++ [LF])
    /\ (lit "  ab   cd" ++ [CR; LF] ++ lit "abcdefghijklmno  gh" ++ [LF] = []
        -> cs = []).
Proof.
  exact (split_join_normalizes
           {| max_tokens := 200; response_ratio := None; chunk_size := 2 |}
           (lit "  ab   cd" ++ [CR; LF] ++ lit "abcdefghijklmno  gh" ++ [LF])
           ltac:(vm_compute; reflexivity)).
Defined.

(** C10. With a positive effective budget, when the first line of the
    context is over the budget and its first word alone is over the budget
    too, the splitter closes the still empty pending chunk: the result
    starts with the empty string, followed by the oversized word as a chunk
    of its own. *)
Theorem split_empty_chunk_before_oversized_word (self : BaseAIProcessor)
    (context last_chunk_end : str) (include_last_chunk : bool)
    (line : str) (lines : list str) (w : str) (ws : list str) :
  0 < effective_budget self last_chunk_end include_last_chunk ->
  str_splitlines context = line :: lines ->
  _count_tokens line > effective_budget self last_chunk_end include_last_chunk ->
  str_split line = w :: ws ->
  _count_tokens w > effective_budget self last_chunk_end include_last_chunk ->
  exists cs,
    _split_into_chunks self context last_chunk_end include_last_chunk
    = Ok ([] :: w :: cs).
Proof.
  intros Hpos Hlines Hline Hwords Hw. unfold _split_into_chunks.
  set (budget := effective_budget self last_chunk_end include_last_chunk) in *.
  destruct (budget <=? 0) eqn:Hcmp; [apply Z.leb_le in Hcmp; lia|].
  rewrite Hlines. cbn [fold_left].
  assert (Hseed : seeded budget [ [] ] w (line_step budget split_start line)).
  { unfold line_step.
    replace (_count_tokens line >? budget) with true by (symmetry; apply Z.gtb_lt; lia).
    rewrite Hwords. cbn [fold_left]. apply words_fold_seeded.
    unfold word_step. cbn [split_start current_token_count chunks current_chunk].
    replace (0 + _count_tokens w >? budget) with true
      by (symmetry; apply Z.gtb_lt; lia).
    left. cbn. repeat split. exact Hw. }
  destruct (split_finish_seeded budget [ [] ] w _
              (lines_fold_seeded budget [ [] ] w lines _ Hseed)) as (more & ->).
  exists more. reflexivity.
Qed.

Lemma split_empty_chunk_before_oversized_word_witness :
  exists cs,
    _split_into_chunks
      {| max_tokens := 200; response_ratio := None; chunk_size := 1 |}
      (lit "abcdefghij") [] false
    = Ok ([] :: lit "abcdefghij" :: cs).
Proof.
  exact (split_empty_chunk_before_oversized_word
           {| max_tokens := 200; response_ratio := None; chunk_size := 1 |}
           (lit "abcdefghij") [] false (lit "abcdefghij") [] (lit "abcdefghij") []
           ltac:(vm_compute; reflexivity) ltac:(vm_compute; reflexivity)
           ltac:(vm_compute; reflexivity) ltac:(vm_compute; reflexivity)
           ltac:(vm_compute; reflexivity)).
Defined.

Lemma reserve_returns (self : BaseAIProcessor) (prompt chunk : str) (carried : Z) :
  0 < max_tokens self - (_count_tokens prompt + _count_tokens chunk + carried) ->
  _calculate_reserved_tokens self prompt chunk carried
  = Ok (max_tokens self - (_count_tokens prompt + _count_tokens chunk + carried)).
Proof.
  intros H. unfold _calculate_reserved_tokens. cbn zeta.
  destruct (_ <=? 0) eqn:Hcmp; [apply Z.leb_le in Hcmp; lia | reflexivity].
Qed.

Lemma reserve_fails (self : BaseAIProcessor) (prompt chunk : str) (carried : Z) :
  max_tokens self - (_count_tokens prompt + _count_tokens chunk + carried) <= 0 ->
  _calculate_reserved_tokens self prompt chunk carried = Raise not_enough_tokens.
Proof.
  intros H. unfold _calculate_reserved_tokens. cbn zeta.
  destruct (_ <=? 0) eqn:Hcmp; [reflexivity | apply Z.leb_gt in Hcmp; lia].
Qed.

(** C7. [reserve] computes [max_tokens] minus the tokens of the prompt, of
    the chunk and of the carried tail; it fails with the error of an
    insufficient budget exactly when that difference is not positive, and
    returns the difference otherwise.  With [max_tokens = 200] it fails on a
    prompt of 1000 ['a'] and a chunk of 1000 ['b']. *)
Theorem reserve_spec (self : BaseAIProcessor) (prompt chunk : str)
    (carried_tail_tokens : Z) :
  let reserved :=
    max_tokens self
    - (_count_tokens prompt + _count_tokens chunk + carried_tail_tokens) in
  (_calculate_reserved_tokens self prompt chunk carried_tail_tokens
   = Raise not_enough_tokens <-> reserved <= 0)
  /\ (_calculate_reserved_tokens self prompt chunk carried_tail_tokens
      = Ok reserved <-> 0 < reserved)
  /\ (forall r,
        _calculate_reserved_tokens self prompt chunk carried_tail_tokens = Ok r ->
        r = reserved /\ 0 < r)
  /\ (forall ratio size,
        _calculate_reserved_tokens
          {| max_tokens := 200; response_ratio := ratio; chunk_size := size |}
          (repeat "a"%char 1000) (repeat "b"%char 1000) 0
        = Raise not_enough_tokens).
Proof.
  intros reserved.
  assert (Hcode : _calculate_reserved_tokens self prompt chunk carried_tail_tokens
                  = if reserved <=? 0 then Raise not_enough_tokens else Ok reserved)
    by reflexivity.
  rewrite Hcode. clear Hcode.
  split; [|split; [|split]].
  - destruct (reserved <=? 0) eqn:Hcmp.
    + apply Z.leb_le in Hcmp. split; [intros _; exact Hcmp | reflexivity].
    + apply Z.leb_gt in Hcmp. split; [discriminate | lia].
  - destruct (reserved <=? 0) eqn:Hcmp.
    + apply Z.leb_le in Hcmp. split; [discriminate | lia].
    + apply Z.leb_gt in Hcmp. split; [intros _; exact Hcmp | reflexivity].
  - intros r. destruct (reserved <=? 0) eqn:Hcmp; [discriminate|].
    apply Z.leb_gt in Hcmp. intros E. injection E as <-. split; [reflexivity | exact Hcmp].
  - intros ratio size. vm_compute. reflexivity.
Qed.

(** ** The continuity extractor *)

Lemma tail_loop_keep_backward (bound : Z) (rwords : list str) :
  forall result token_count,
    rev (tail_loop bound rwords result token_count)
    = Spec.keep_backward bound token_count rwords ++ rev result.
Proof.
  induction rwords as [|word rest IH]; intros result token_count; simpl.
  - reflexivity.
  - destruct (token_count + _count_tokens word >? bound) eqn:Hgt.
    + replace (token_count + _count_tokens word <=? bound) with false
        by (symmetry; apply Z.leb_gt; apply Z.gtb_lt in Hgt; lia).
      reflexivity.
    + replace (token_count + _count_tokens word <=? bound) with true
        by (symmetry; apply Z.leb_le; rewrite Z.gtb_ltb in Hgt;
            apply Z.ltb_ge in Hgt; lia).
      rewrite IH, rev_app_distr, <- app_assoc. reflexivity.
Qed.

Lemma keep_backward_bounded (bound : Z) (backward : list str) :
  forall running,
    running <= bound ->
    running + sum (map _count_tokens (Spec.keep_backward bound running backward))
    <= bound.
Proof.
  induction backward as [|word earlier IH]; intros running Hle; simpl; [lia|].
  destruct (running + _count_tokens word <=? bound) eqn:Hfit; simpl; [|lia].
  apply Z.leb_le in Hfit. specialize (IH _ Hfit).
  rewrite sum_counts_snoc. lia.
Qed.

Lemma extract_last_chunk_end_bounded (response_text : str) (bound : Z) :
  0 <= bound -> _count_tokens (_extract_last_chunk_end response_text bound) <= bound.
Proof.
  intros Hb. unfold _extract_last_chunk_end.
  rewrite tail_loop_keep_backward, app_nil_r, count_tokens_join.
  pose proof (keep_backward_bounded bound (rev (str_split response_text)) 0 Hb).
  lia.
Qed.

(** C8. [extract_tail] is the backward walk of the specification: words are
    kept from the end while the running estimate stays within the bound, the
    first word that would exceed it stops the walk and is dropped, and the
    kept words are joined by single spaces in their original order.  On
    ["This is a test response. It has some content."] with bound 3 the
    result is ["some content."]. *)
Theorem extract_tail_is_backward_walk (response_text : str) (max_tail_tokens : Z) :
  _extract_last_chunk_end response_text max_tail_tokens
  = Spec.extract_tail response_text max_tail_tokens
  /\ _extract_last_chunk_end
       (lit "This is a test response. It has some content.") 3
     = lit "some content.".
Proof.
  split; [|reflexivity].
  unfold _extract_last_chunk_end, Spec.extract_tail.
  rewrite tail_loop_keep_backward, app_nil_r. reflexivity.
Qed.

(** ** The processing loops *)

Lemma nth_error_map_seq {A : Type} (f : nat -> A) (len i start : nat) (v : A) :
  nth_error (map f (seq start len)) i = Some v -> v = f (start + i)%nat.
Proof.
  revert i start. induction len as [|len IH]; intros i start H.
  - destruct i; discriminate H.
  - destruct i as [|i]; simpl in H.
    + injection H as <-. f_equal. lia.
    + apply IH in H. rewrite H. f_equal. lia.
Qed.

Lemma embeddings_loop_indices (post : transport) (context : list str) :
  forall index acc items,
    Embeddings.loop post index context acc = Ok items ->
    map Embeddings.index items
    = map Embeddings.index acc
        ++ map Z.of_nat (seq index (List.length context)).
Proof.
  induction context as [|message rest IH]; intros index acc items H; simpl in *.
  - injection H as <-. rewrite app_nil_r. reflexivity.
  - destruct (Embeddings._call_model post index [] message) as [e|]; simpl in H;
      [|discriminate H].
    rewrite (IH _ _ _ H), map_app, <- app_assoc. reflexivity.
Qed.

Section ChatLoop.

Variable self : BaseAIProcessor.
Variable post : transport.
Variable format : str -> str -> result str.
Variable p : Chat.prompts.
Variable include : bool.

Lemma chat_step_results (index : nat) (chunk : str) (st st' : Chat.state) :
  Chat.step self post format p include index chunk st = Ok st' ->
  exists response,
    Chat.results st'
    = Chat.results st
        ++ [ {| Chat.index := Z.of_nat index + 1;
                Chat.input_text := chunk;
                Chat.response_text := response |} ].
Proof.
  unfold Chat.step.
  destruct (Chat.build_prompt format p index st) as [prompt|]; simpl;
    [|discriminate].
  destruct (_calculate_reserved_tokens self prompt chunk
              (Chat.carried_token_count st)) as [reserved|]; simpl;
    [|discriminate].
  destruct (Chat._call_model post index prompt chunk) as [response|]; simpl;
    [|discriminate].
  destruct include.
  - destruct (Chat.extract_tail_of response) as [tail|]; simpl; [|discriminate].
    intros E. injection E as <-. exists response. reflexivity.
  - intros E. injection E as <-. exists response. reflexivity.
Qed.

Lemma chat_loop_indices (chunks : list str) :
  forall index st st',
    Chat.loop self post format p include index chunks st = Ok st' ->
    map Chat.index (Chat.results st')
    = map Chat.index (Chat.results st)
        ++ map (fun k => Z.of_nat k + 1) (seq index (List.length chunks)).
Proof.
  induction chunks as [|chunk rest IH]; intros index st st' H; simpl in *.
  - injection H as <-. rewrite app_nil_r. reflexivity.
  - destruct (Chat.step self post format p include index chunk st) as [st1|] eqn:Hstep;
      simpl in H; [|discriminate H].
    destruct (chat_step_results _ _ _ _ Hstep) as (response & Hres).
    rewrite (IH _ _ _ H), Hres, map_app, <- app_assoc. reflexivity.
Qed.

Lemma chat_loop_app (pre rest : list str) :
  forall index st,
    Chat.loop self post format p include index (pre ++ rest) st
    = (st' <- Chat.loop self post format p include index pre st ;;
       Chat.loop self post format p include (index + List.length pre) rest st').
Proof.
  induction pre as [|chunk pre IH]; intros index st; simpl.
  - rewrite Nat.add_0_r. reflexivity.
  - destruct (Chat.step self post format p include index chunk st) as [st1|];
      simpl; [|reflexivity].
    rewrite IH. replace (S index + List.length pre)%nat
      with (index + S (List.length pre))%nat by lia.
    reflexivity.
Qed.

(** The tail a step hands to the next one is cut at the default bound of
    [_extract_last_chunk_end], whatever the options say. *)
Lemma chat_step_tail (index : nat) (chunk : str) (st st' : Chat.state) :
  Chat.carried_token_count st = _count_tokens (Chat.last_chunk_end st) ->
  _count_tokens (Chat.last_chunk_end st) <= 50 ->
  Chat.step self post format p include index chunk st = Ok st' ->
  Chat.carried_token_count st' = _count_tokens (Chat.last_chunk_end st')
  /\ _count_tokens (Chat.last_chunk_end st') <= 50.
Proof.
  intros Hcount Hle. unfold Chat.step.
  destruct (Chat.build_prompt format p index st) as [prompt|]; simpl;
    [|discriminate].
  destruct (_calculate_reserved_tokens self prompt chunk
              (Chat.carried_token_count st)) as [reserved|]; simpl;
    [|discriminate].
  destruct (Chat._call_model post index prompt chunk) as [response|]; simpl;
    [|discriminate].
  destruct include.
  - destruct response; simpl; try discriminate.
    intros E. injection E as <-. simpl. split; [reflexivity|].
    apply extract_last_chunk_end_bounded. lia.
  - intros E. injection E as <-. simpl. split; assumption.
Qed.

End ChatLoop.

Example small_chat_init : init 20 (Some three_quarters) = Ok small_chat.
Proof. vm_compute. reflexivity. Qed.

(** ** Claims about the two [process] methods *)

Lemma chat_process_indices (self : BaseAIProcessor) (post : transport)
    (format : str -> str -> result str) (context : str) (p : Chat.prompts)
    (opts : option Chat.options) (out : Chat.outcome) (i : nat) (it : Chat.item) :
  Chat.process self post format context p opts = Ok out ->
  nth_error (Chat.chunks out) i = Some it ->
  Chat.index it = Z.of_nat i + 1.
Proof.
  unfold Chat.process. intros H Hnth.
  destruct (_split_into_chunks self context [] (Chat.include_flag opts))
    as [cs|]; simpl in H; [|discriminate H].
  destruct (Chat.loop self post format p (Chat.include_flag opts) 0 cs Chat.start)
    as [st|] eqn:Hloop; simpl in H; [|discriminate H].
  injection H as <-. simpl in Hnth.
  apply chat_loop_indices in Hloop. simpl in Hloop.
  apply (map_nth_error Chat.index) in Hnth. rewrite Hloop in Hnth.
  apply nth_error_map_seq in Hnth. rewrite Hnth. reflexivity.
Qed.

Lemma embeddings_process_indices (post : transport) (context : list str)
    (out : Embeddings.outcome) (i : nat) (it : Embeddings.item) :
  Embeddings.process post context = Ok out ->
  nth_error (Embeddings.embeddings out) i = Some it ->
  Embeddings.index it = Z.of_nat i.
Proof.
  unfold Embeddings.process. intros H Hnth.
  destruct (Embeddings.loop post 0 context []) as [items|] eqn:Hloop;
    simpl in H; [|discriminate H].
  injection H as <-. simpl in Hnth.
  apply embeddings_loop_indices in Hloop. simpl in Hloop.
  apply (map_nth_error Embeddings.index) in Hnth. rewrite Hloop in Hnth.
  apply nth_error_map_seq in Hnth. rewrite Hnth. reflexivity.
Qed.

(** C1. In chat mode the item at position [i] (counting from 1) has index
    [i]; in embedding mode the counter of [enumerate] is stored as it is, so
    the first item has index 0 and the second has index 1. *)
Theorem embeddings_index_starts_at_zero :
  Embeddings.process (constant_post (embedding_reply [JInt 1; JInt 2]))
    [lit "a"; lit "b"]
  = Ok {| Embeddings.status := "success";
          Embeddings.embeddings :=
            [ {| Embeddings.index := 0;
                 Embeddings.message := lit "a";
                 Embeddings.embedding := JList [JInt 1; JInt 2] |};
              {| Embeddings.index := 1;
                 Embeddings.message := lit "b";
                 Embeddings.embedding := JList [JInt 1; JInt 2] |} ] |}.
Proof. reflexivity. Qed.

(** C2. With [include_last_chunk] on and [last_chunk_token_count = 1] in
    the options, the tail carried into the second chunk's prompt is
    ["a b c"], three tokens: the option is not read and the cut is made at
    the default 50. *)
Theorem carried_tail_ignores_option :
  Chat.process small_chat (echo_post (lit "a b c")) format_plain two_lines
    example_prompts
    (Some {| Chat.include_last_chunk := Some true;
             Chat.last_chunk_token_count := Some 1 |})
  = Ok {| Chat.status := "success";
          Chat.chunks :=
            [ {| Chat.index := 1;
                 Chat.input_text := lit "one two three";
                 Chat.response_text := JStr (lit "a b c") |};
              {| Chat.index := 2;
                 Chat.input_text := lit "four five six";
                 Chat.response_text := JStr (lit "Next a b c") |} ] |}
  /\ _count_tokens (lit "a b c") = 3.
Proof. split; vm_compute; reflexivity. Qed.

(** ** Response documents with absent or malformed fields *)

Lemma chat_extract_missing (response_data : json) :
  Spec.chat_field_missing response_data = true ->
  Chat.extract response_data = Ok (JStr []).
Proof.
  unfold Spec.chat_field_missing, Chat.extract.
  destruct response_data as [| | | | | |fields]; try discriminate.
  cbn [py_get bind].
  destruct (lookup "choices" fields) as [[| | | | |items|]|]; try discriminate;
    [|intros _; reflexivity].
  destruct items as [|[| | | | | |choice] others]; try discriminate.
  cbn [py_item0 py_get bind].
  destruct (lookup "message" choice) as [[| | | | | |message]|]; try discriminate;
    [|intros _; reflexivity].
  cbn [py_get bind].
  destruct (lookup "content" message); [discriminate | intros _; reflexivity].
Qed.

Lemma embedding_extract_missing (response_data : json) :
  Spec.embedding_field_missing response_data = true ->
  Embeddings.extract response_data = Ok (JList []).
Proof.
  unfold Spec.embedding_field_missing, Embeddings.extract.
  destruct response_data as [| | | | | |fields]; try discriminate.
  cbn [py_get bind].
  destruct (lookup "data" fields) as [[| | | | |items|]|]; try discriminate;
    [|intros _; reflexivity].
  destruct items as [|[| | | | | |datum] others]; try discriminate.
  cbn [py_item0 py_get bind].
  destruct (lookup "embedding" datum); [discriminate | intros _; reflexivity].
Qed.

(** C3, as the claim states it, fails: a document whose ["choices"] (or
    ["data"]) is an empty list makes the extraction raise [IndexError], and
    the run that receives it raises too instead of going on. *)
Lemma malformed_response_raises :
  Chat.extract (JDict [ ("choices"%string, JList []) ]) = Raise IndexError
  /\ Embeddings.extract (JDict [ ("data"%string, JList []) ]) = Raise IndexError
  /\ Chat.process small_chat
       (constant_post (JDict [ ("choices"%string, JList []) ]))
       format_plain two_lines example_prompts None
     = Raise IndexError
  /\ Embeddings.process (constant_post (JDict [ ("data"%string, JList []) ]))
       [lit "a"; lit "b"]
     = Raise IndexError.
Proof. repeat split; vm_compute; reflexivity. Qed.

(** C3, amended. When an expected key is absent from the response document
    (no ["choices"], a first choice without ["message"], a message without
    ["content"]; no ["data"], a first datum without ["embedding"]) the
    extraction gives the empty string, respectively the empty vector, the
    item is recorded with it, and the loop goes on with the remaining
    chunks or messages. *)
Theorem missing_fields_degrade_and_continue :
  (forall response_data,
      Spec.chat_field_missing response_data = true ->
      Chat.extract response_data = Ok (JStr []))
  /\ (forall response_data,
        Spec.embedding_field_missing response_data = true ->
        Embeddings.extract response_data = Ok (JList []))
  /\ (forall post index message rest acc response_data,
        post index [] message = Ok response_data ->
        Spec.embedding_field_missing response_data = true ->
        Embeddings.loop post index (message :: rest) acc
        = Embeddings.loop post (S index) rest
            (acc ++ [ {| Embeddings.index := Z.of_nat index;
                         Embeddings.message := message;
                         Embeddings.embedding := JList [] |} ]))
  /\ (forall self post format p include index chunk rest st prompt response_data,
        Chat.build_prompt format p index st = Ok prompt ->
        0 < max_tokens self
            - (_count_tokens prompt + _count_tokens chunk
               + Chat.carried_token_count st) ->
        post index prompt chunk = Ok response_data ->
        Spec.chat_field_missing response_data = true ->
        Chat.loop self post format p include index (chunk :: rest) st
        = Chat.loop self post format p include (S index) rest
            {| Chat.results :=
                 Chat.results st
                   ++ [ {| Chat.index := Z.of_nat index + 1;
                           Chat.input_text := chunk;
                           Chat.response_text := JStr [] |} ];
               Chat.last_chunk_end :=
                 if include then [] else Chat.last_chunk_end st;
               Chat.carried_token_count :=
                 if include then 0 else Chat.carried_token_count st |}).
Proof.
  split; [exact chat_extract_missing|].
  split; [exact embedding_extract_missing|].
  split.
  - intros post index message rest acc response_data Hpost Hmissing.
    cbn [Embeddings.loop]. unfold Embeddings._call_model.
    rewrite Hpost. cbn [bind].
    rewrite (embedding_extract_missing _ Hmissing). reflexivity.
  - intros self post format p include index chunk rest st prompt response_data
      Hprompt Hreserved Hpost Hmissing.
    cbn [Chat.loop]. unfold Chat.step.
    rewrite Hprompt. cbn [bind].
    rewrite (reserve_returns _ _ _ _ Hreserved). cbn [bind].
    unfold Chat._call_model. rewrite Hpost. cbn [bind].
    rewrite (chat_extract_missing _ Hmissing). cbn [bind].
    destruct include; reflexivity.
Qed.

Lemma missing_fields_degrade_and_continue_witness :
  Chat.extract (JDict [ ("choices"%string, JList [ JDict [] ]) ]) = Ok (JStr [])
  /\ Embeddings.extract (JDict []) = Ok (JList [])
  /\ Embeddings.loop (constant_post (JDict [])) 0 [lit "a"; lit "b"] []
     = Embeddings.loop (constant_post (JDict [])) 1 [lit "b"]
         [ {| Embeddings.index := 0;
              Embeddings.message := lit "a";
              Embeddings.embedding := JList [] |} ]
  /\ Chat.loop small_chat (constant_post (JDict [])) format_plain
       example_prompts true 0 [lit "one two three"; lit "four five six"]
       Chat.start
     = Chat.loop small_chat (constant_post (JDict [])) format_plain
         example_prompts true 1 [lit "four five six"]
         {| Chat.results :=
              [ {| Chat.index := 1;
                   Chat.input_text := lit "one two three";
                   Chat.response_text := JStr [] |} ];
            Chat.last_chunk_end := [];
            Chat.carried_token_count := 0 |}.
Proof.
  destruct missing_fields_degrade_and_continue as (Hchat & Hemb & Heloop & Hcloop).
  split; [apply Hchat; reflexivity|].
  split; [apply Hemb; reflexivity|].
  split.
  - apply (Heloop (constant_post (JDict [])) 0%nat (lit "a") [lit "b"] [] (JDict []));
      reflexivity.
  - apply (Hcloop small_chat (constant_post (JDict [])) format_plain
             example_prompts true 0%nat (lit "one two three")
             [lit "four five six"] Chat.start (lit "Go") (JDict []));
      vm_compute; reflexivity.
Defined.

(** C9. When the reservation check fails at some chunk of a chat run, after
    the chunks before it were processed, the whole [process] call raises the
    error of an insufficient budget: the caller gets no outcome, so none of
    the items already collected. *)
Theorem reservation_failure_aborts_run (self : BaseAIProcessor)
    (post : transport) (format : str -> str -> result str)
    (context : str) (p : Chat.prompts) (opts : option Chat.options)
    (pre : list str) (chunk : str) (rest : list str)
    (st : Chat.state) (prompt : str) :
  _split_into_chunks self context [] (Chat.include_flag opts)
  = Ok (pre ++ chunk :: rest) ->
  Chat.loop self post format p (Chat.include_flag opts) 0 pre Chat.start = Ok st ->
  Chat.build_prompt format p (List.length pre) st = Ok prompt ->
  max_tokens self
  - (_count_tokens prompt + _count_tokens chunk + Chat.carried_token_count st)
  <= 0 ->
  Chat.process self post format context p opts = Raise not_enough_tokens.
Proof.
  intros Hsplit Hpre Hprompt Hreserved.
  unfold Chat.process. rewrite Hsplit. cbn [bind].
  rewrite chat_loop_app, Hpre. cbn [bind Chat.loop Nat.add].
  unfold Chat.step. rewrite Hprompt. cbn [bind].
  rewrite (reserve_fails _ _ _ _ Hreserved). reflexivity.
Qed.

Lemma reservation_failure_aborts_run_witness :
  Chat.process small_chat (echo_post (lit "a b c d e f g h")) format_plain
    two_lines example_prompts
    (Some {| Chat.include_last_chunk := Some true;
             Chat.last_chunk_token_count := None |})
  = Raise not_enough_tokens.
Proof.
  exact (reservation_failure_aborts_run small_chat
           (echo_post (lit "a b c d e f g h")) format_plain two_lines
           example_prompts
           (Some {| Chat.include_last_chunk := Some true;
                    Chat.last_chunk_token_count := None |})
           [lit "one two three"] (lit "four five six") []
           {| Chat.results :=
                [ {| Chat.index := 1;
                     Chat.input_text := lit "one two three";
                     Chat.response_text := JStr (lit "a b c d e f g h") |} ];
              Chat.last_chunk_end := lit "a b c d e f g h";
              Chat.carried_token_count := 8 |}
           (lit "Next a b c d e f g h")
           ltac:(vm_compute; reflexivity) ltac:(vm_compute; reflexivity)
           ltac:(vm_compute; reflexivity)
           ltac:(vm_compute; intro H; discriminate H)).
Defined.

(** ** The budget calculator *)

Lemma int_of_float_floor (x : float) :
  sign_clear x -> int_of_float x = Spec.floor_of_float x.
Proof. destruct x as [s|s| |s m e]; simpl; intros H; subst; reflexivity. Qed.

Lemma round_aux_sign (sx : bool) (mx ex : Z) (lx : location) :
  sx = false -> sign_clear (binary_round_aux prec emax sx mx ex lx).
Proof.
  intros ->. unfold binary_round_aux.
  destruct (shr_fexp prec emax mx ex lx) as [mrs' e'].
  destruct (shr_fexp prec emax _ e' loc_Exact) as [mrs'' e''].
  destruct (shr_m mrs''); simpl; auto.
  destruct (e'' <=? 971); simpl; auto.
Qed.

Lemma normalize_sign (z e : Z) :
  0 <= z -> sign_clear (binary_normalize prec emax z e false).
Proof.
  intros Hz. destruct z as [|m|m]; simpl; [exact I| |lia].
  unfold binary_round. destruct (shl_align m e _) as [mz ez].
  apply round_aux_sign. reflexivity.
Qed.

Lemma mul_sign (x y : float) :
  sign_clear x -> sign_clear y -> sign_clear (SFmul prec emax x y).
Proof.
  destruct x as [sx|sx| |sx mx ex], y as [sy|sy| |sy my ey]; simpl; auto.
  intros -> ->. apply round_aux_sign. reflexivity.
Qed.

Lemma iter_xO_pow2 (m d : positive) :
  Zpos (Pos.iter xO m d) = Zpos m * 2 ^ Zpos d.
Proof.
  induction d as [|d IH] using Pos.peano_ind.
  - simpl. lia.
  - rewrite Pos.iter_succ, Pos2Z.inj_xO, IH, Pos2Z.inj_succ, Z.pow_succ_r by lia.
    lia.
Qed.

Lemma shl_align_fst (mx : positive) (ex ez : Z) :
  ez <= ex -> Zpos (fst (shl_align mx ex ez)) = Zpos mx * 2 ^ (ex - ez).
Proof.
  intros Hle. unfold shl_align. destruct (ez - ex) as [|d|d] eqn:Hd.
  - replace (ex - ez) with 0 by lia. simpl. lia.
  - lia.
  - cbn [fst]. rewrite iter_xO_pow2.
    replace (ex - ez) with (Zpos d) by lia. reflexivity.
Qed.

Lemma digits2_pos_bound (m : positive) : Zpos m < 2 ^ Zpos (digits2_pos m).
Proof.
  induction m as [m IH|m IH|]; cbn [digits2_pos].
  - rewrite Pos2Z.inj_succ, Z.pow_succ_r, Pos2Z.inj_xI by lia. lia.
  - rewrite Pos2Z.inj_succ, Z.pow_succ_r, Pos2Z.inj_xO by lia. lia.
  - reflexivity.
Qed.

Lemma valid_mantissa_bound (s : bool) (m : positive) (e : Z) :
  valid_binary prec emax (S754_finite s m e) = true -> Zpos m < 2 ^ 53.
Proof.
  unfold valid_binary, bounded, canonical_mantissa, fexp, emin, prec, emax.
  intros H. apply andb_true_iff in H as [H _]. apply Z.eqb_eq in H.
  pose proof (digits2_pos_bound m) as Hm.
  assert (Hd : Zpos (digits2_pos m) <= 53) by lia.
  pose proof (Z.pow_le_mono_r 2 (Zpos (digits2_pos m)) 53 ltac:(lia) Hd).
  lia.
Qed.

Lemma one_minus_ratio_sign (ratio : float) :
  valid_binary prec emax ratio = true ->
  Spec.in_open_unit_interval ratio = true ->
  sign_clear (SFsub prec emax float_one ratio).
Proof.
  intros Hvalid Hin. unfold Spec.in_open_unit_interval in Hin.
  apply andb_true_iff in Hin as [Hpos Hlt].
  destruct ratio as [s|s| |s m e]; try discriminate.
  - destruct s; discriminate.
  - destruct s; [discriminate|].
    pose proof (valid_mantissa_bound _ _ _ Hvalid) as Hm.
    change float_one with (S754_finite false 4503599627370496 (-52)) in *.
    assert (Hcases : e < -52 \/ (e = -52 /\ Zpos m < 4503599627370496)).
    { unfold SFltb, SFcompare in Hlt.
      destruct (e ?= -52) eqn:Hcmp.
      - right. split; [apply Z.compare_eq, Hcmp|].
        destruct (Pos.compare_cont Eq m 4503599627370496) eqn:Hm2;
          try discriminate Hlt.
        apply (Pos.compare_lt_iff m 4503599627370496). exact Hm2.
      - left. apply Z.compare_lt_iff, Hcmp.
      - discriminate Hlt. }
    clear Hvalid Hpos Hlt.
    cbn [SFsub]. apply normalize_sign.
    rewrite !shl_align_fst by lia. cbn [cond_Zopp].
    change (2 ^ 53) with 9007199254740992 in Hm.
    destruct Hcases as [Hlt | [-> Hlt]].
    + replace (Z.min (-52) e) with e by lia.
      replace (e - e) with 0 by lia.
      assert (Hk : 2 ^ 1 <= 2 ^ (-52 - e)) by (apply Z.pow_le_mono_r; lia).
      change (2 ^ 1) with 2 in Hk. change (2 ^ 0) with 1.
      generalize dependent (2 ^ (-52 - e)). intros k Hk. lia.
    + change (Z.min (-52) (-52)) with (-52).
      change (-52 - -52) with 0. change (2 ^ 0) with 1. lia.
Qed.

Lemma shr_1_m (mrs : shr_record) :
  0 <= shr_m mrs -> shr_m (shr_1 mrs) = shr_m mrs / 2.
Proof.
  destruct mrs as [m r s]. cbn [shr_m]. intros Hm.
  rewrite <- Z.div2_div.
  destruct m as [|[p|p|]|p]; try reflexivity. lia.
Qed.

Lemma iter_shr_m (p : positive) :
  forall mrs, 0 <= shr_m mrs ->
    shr_m (iter_pos shr_1 p mrs) = shr_m mrs / 2 ^ Zpos p.
Proof.
  induction p as [p IH|p IH|]; intros mrs Hm; cbn [iter_pos].
  - assert (H1 : 0 <= shr_m (shr_1 mrs))
      by (rewrite shr_1_m by exact Hm; apply Z.div_pos; lia).
    assert (H2 : 0 <= shr_m (iter_pos shr_1 p (shr_1 mrs)))
      by (rewrite IH by exact H1; apply Z.div_pos; [exact H1 | apply Z.pow_pos_nonneg; lia]).
    rewrite IH by exact H2. rewrite IH by exact H1. rewrite shr_1_m by exact Hm.
    pose proof (Z.pow_pos_nonneg 2 (Zpos p) ltac:(lia) ltac:(lia)) as Hp.
    rewrite !Z.div_div by lia.
    f_equal. rewrite (Pos2Z.inj_xI p).
    replace (2 * Zpos p + 1) with (1 + Zpos p + Zpos p) by lia.
    rewrite !Z.pow_add_r by lia. change (2 ^ 1) with 2. lia.
  - assert (H2 : 0 <= shr_m (iter_pos shr_1 p mrs))
      by (rewrite IH by exact Hm; apply Z.div_pos; [exact Hm | apply Z.pow_pos_nonneg; lia]).
    rewrite IH by exact H2. rewrite IH by exact Hm.
    pose proof (Z.pow_pos_nonneg 2 (Zpos p) ltac:(lia) ltac:(lia)) as Hp.
    rewrite !Z.div_div by lia.
    f_equal.  rewrite (Pos2Z.inj_xO p). 
    replace (2 * Zpos p) with (Zpos p + Zpos p) by lia. 
    rewrite !Z.pow_add_r by lia. reflexivity.
  - rewrite shr_1_m by exact Hm. reflexivity.
Qed.

Lemma shr_record_of_loc_m (m : Z) (l : location) :
  shr_m (shr_record_of_loc m l) = m.
Proof. destruct l as [|[]]; reflexivity. Qed.

Lemma digits2_pos_lower (m : positive) :
  2 ^ (Zpos (digits2_pos m) - 1) <= Zpos m.
Proof.
  induction m as [m IH|m IH|]; cbn [digits2_pos].
  - rewrite Pos2Z.inj_succ, (Pos2Z.inj_xI m).
    replace (Z.succ (Zpos (digits2_pos m)) - 1) with (Z.succ (Zpos (digits2_pos m) - 1)) by lia.
    rewrite Z.pow_succ_r by lia. lia.
  - rewrite Pos2Z.inj_succ, (Pos2Z.inj_xO m).
    replace (Z.succ (Zpos (digits2_pos m)) - 1) with (Z.succ (Zpos (digits2_pos m) - 1)) by lia.
    rewrite Z.pow_succ_r by lia. lia.
  - reflexivity.
Qed.

Lemma Zdigits2_le (z k : Z) :
  0 <= z < 2 ^ k -> 0 <= k -> Zdigits2 z <= k.
Proof.
  intros [Hz Hlt] Hk. destruct z as [|m|m]; simpl; [exact Hk| |lia].
  pose proof (digits2_pos_lower m) as Hl.
  assert (H : 2 ^ (Zpos (digits2_pos m) - 1) < 2 ^ k) by lia.
  apply Z.pow_lt_mono_r_iff in H; lia.
Qed.

Lemma Zdigits2_upper (z : Z) : 0 <= z -> z < 2 ^ Zdigits2 z.
Proof.
  intros Hz. destruct z as [|m|m]; simpl; [reflexivity| |lia].
  apply digits2_pos_bound.
Qed.

Lemma Zdigits2_nonneg (z : Z) : 0 <= Zdigits2 z.
Proof. destruct z; simpl; lia. Qed.

Lemma shr_fexp_spec (m e : Z) (l : location) :
  0 <= m ->
  e <= snd (shr_fexp prec emax m e l)
  /\ snd (shr_fexp prec emax m e l) = Z.max e (fexp prec emax (Zdigits2 m + e))
  /\ 0 <= shr_m (fst (shr_fexp prec emax m e l))
  /\ shr_m (fst (shr_fexp prec emax m e l)) < 2 ^ 53.
Proof.
  intros Hm. unfold shr_fexp, shr.
  pose proof (Zdigits2_upper m Hm) as Hup.
  pose proof (Zdigits2_nonneg m) as Hd.
  set (d := Zdigits2 m) in *.
  assert (Hfexp : d + e - 53 <= fexp prec emax (d + e))
    by (unfold fexp, emin, prec, emax; lia).
  destruct (fexp prec emax (d + e) - e) as [|p|p] eqn:Hn; cbn [fst snd].
  - rewrite shr_record_of_loc_m. repeat split; try lia.
    assert (2 ^ d <= 2 ^ 53) by (apply Z.pow_le_mono_r; lia). lia.
  - rewrite iter_shr_m by (rewrite shr_record_of_loc_m; exact Hm).
    rewrite shr_record_of_loc_m.
    pose proof (Z.pow_pos_nonneg 2 (Zpos p) ltac:(lia) ltac:(lia)) as Hp.
    repeat split; try lia.
    + apply Z.div_pos; lia.
    + apply Z.div_lt_upper_bound; [exact Hp|].
      assert (H : 2 ^ d <= 2 ^ (Zpos p + 53)) by (apply Z.pow_le_mono_r; lia).
      rewrite Z.pow_add_r in H by lia. lia.
  - rewrite shr_record_of_loc_m. repeat split; try lia.
    assert (2 ^ d <= 2 ^ 53) by (apply Z.pow_le_mono_r; lia). lia.
Qed.

Lemma round_nearest_even_bounds (m : Z) (l : location) :
  m <= round_nearest_even m l <= m + 1.
Proof.
  unfold round_nearest_even. destruct l as [|[]]; try lia.
  destruct (Z.even m); lia.
Qed.

Lemma within_mono (b1 b2 : Z) (x : float) :
  b1 <= b2 -> within b1 x -> within b2 x.
Proof. destruct x; simpl; intros; try assumption. lia. Qed.

Lemma round_aux_within (sx : bool) (mx ex : Z) (lx : location) (bound : Z) :
  0 <= mx ->
  Z.max ex (fexp prec emax (Zdigits2 mx + ex)) + 1 <= bound ->
  bound <= 971 ->
  within bound (binary_round_aux prec emax sx mx ex lx).
Proof.
  intros Hmx HE Hb. unfold binary_round_aux.
  pose proof (shr_fexp_spec mx ex lx Hmx) as (_ & He' & H0 & Hlt).
  destruct (shr_fexp prec emax mx ex lx) as [mrs' e']. cbn [fst snd] in *.
  pose proof (round_nearest_even_bounds (shr_m mrs') (loc_of_shr_record mrs')) as Hr.
  set (m2 := round_nearest_even (shr_m mrs') (loc_of_shr_record mrs')) in *.
  assert (Hm2 : 0 <= m2) by lia.
  pose proof (shr_fexp_spec m2 e' loc_Exact Hm2) as (_ & He'' & H0' & Hlt').
  assert (Hd2 : Zdigits2 m2 <= 54).
  { apply Zdigits2_le; [|lia].
    change (2 ^ 54) with (2 * 2 ^ 53). lia. }
  pose proof (Zdigits2_nonneg m2) as Hd2'.
  destruct (shr_fexp prec emax m2 e' loc_Exact) as [mrs'' e'']. cbn [fst snd] in *.
  assert (He : e'' <= bound).
  { subst e'' e'. unfold fexp, emin, prec, emax in *. lia. }
  destruct (shr_m mrs'') as [|m|m].
  - exact I.
  - replace (e'' <=? emax - prec) with true
      by (symmetry; apply Z.leb_le; unfold emax, prec; lia).
    simpl. split; [exact He | exact Hlt'].
  - lia.
Qed.

Lemma digits_iter_xO (m d : positive) :
  Zpos (digits2_pos (Pos.iter xO m d)) = Zpos (digits2_pos m) + Zpos d.
Proof.
  induction d as [|d IH] using Pos.peano_ind.
  - simpl. lia.
  - rewrite Pos.iter_succ. cbn [digits2_pos].
    rewrite !Pos2Z.inj_succ, IH. lia.
Qed.

Lemma shl_align_spec (mx : positive) (ex ex' : Z) :
  snd (shl_align mx ex ex') <= ex
  /\ Zpos (digits2_pos (fst (shl_align mx ex ex'))) + snd (shl_align mx ex ex')
     = Zpos (digits2_pos mx) + ex.
Proof.
  unfold shl_align. destruct (ex' - ex) as [|d|d] eqn:Hd; cbn [fst snd].
  - split; lia.
  - split; lia.
  - rewrite digits_iter_xO. split; lia.
Qed.

Lemma normalize_within (z e bound : Z) :
  0 <= z ->
  Z.max e (fexp prec emax (Zdigits2 z + e)) + 1 <= bound ->
  bound <= 971 ->
  within bound (binary_normalize prec emax z e false).
Proof.
  intros Hz HE Hb. destruct z as [|m|m]; [exact I| |lia].
  cbn [binary_normalize]. unfold binary_round.
  pose proof (shl_align_spec m e (fexp prec emax (Zpos (digits2_pos m) + e)))
    as [Hez Hdig].
  destruct (shl_align m e (fexp prec emax (Zpos (digits2_pos m) + e)))
    as [mz ez]. cbn [fst snd] in *.
  apply round_aux_within; [lia| |exact Hb].
  cbn [Zdigits2] in *. rewrite Hdig. lia.
Qed.

Lemma float_of_int_within (z : Z) :
  0 <= z < 2 ^ 1000 ->
  exists m, float_of_int z = Ok m /\ within 948 m /\ sign_clear m.
Proof.
  intros [Hz Hlt]. unfold float_of_int.
  pose proof (normalize_sign z 0 Hz) as Hs.
  assert (Hw : within 948 (binary_normalize prec emax z 0 false)).
  { apply normalize_within; [exact Hz| |lia].
    pose proof (Zdigits2_le z 1000 (conj Hz Hlt) ltac:(lia)) as Hd.
    pose proof (Zdigits2_nonneg z).
    unfold fexp, emin, prec, emax. lia. }
  destruct (binary_normalize prec emax z 0 false) as [s|s| |s m e];
    try contradiction; eexists; (split; [reflexivity | split; assumption]).
Qed.

Lemma one_minus_ratio_within (ratio : float) :
  valid_binary prec emax ratio = true ->
  Spec.in_open_unit_interval ratio = true ->
  within (-51) (SFsub prec emax float_one ratio).
Proof.
  intros Hvalid Hin. unfold Spec.in_open_unit_interval in Hin.
  apply andb_true_iff in Hin as [Hpos Hlt].
  destruct ratio as [s|s| |s m e]; try discriminate.
  - destruct s; discriminate.
  - destruct s; [discriminate|].
    pose proof (valid_mantissa_bound _ _ _ Hvalid) as Hm.
    change float_one with (S754_finite false 4503599627370496 (-52)) in *.
    assert (Hcases : e < -52 \/ (e = -52 /\ Zpos m < 4503599627370496)).
    { unfold SFltb, SFcompare in Hlt.
      destruct (e ?= -52) eqn:Hcmp.
      - right. split; [apply Z.compare_eq, Hcmp|].
        destruct (Pos.compare_cont Eq m 4503599627370496) eqn:Hm2;
          try discriminate Hlt.
        apply (Pos.compare_lt_iff m 4503599627370496). exact Hm2.
      - left. apply Z.compare_lt_iff, Hcmp.
      - discriminate Hlt. }
    clear Hvalid Hpos Hlt.
    cbn [SFsub].
    rewrite !shl_align_fst by lia. cbn [cond_Zopp].
    set (ez := Z.min (-52) e).
    assert (Hez : ez <= -52) by (unfold ez; lia).
    assert (Hone : 4503599627370496 * 2 ^ (-52 - ez) = 2 ^ (- ez)).
    { change 4503599627370496 with (2 ^ 52).
      rewrite <- Z.pow_add_r by lia. f_equal. lia. }
    rewrite Hone.
    assert (Hr : 0 < Zpos m * 2 ^ (e - ez) <= 2 ^ (- ez)).
    { split.
      - apply Z.mul_pos_pos; [lia | apply Z.pow_pos_nonneg; unfold ez; lia].
      - rewrite <- Hone. change (2 ^ 53) with 9007199254740992 in Hm.
        destruct Hcases as [Hlt | [-> Hlt]].
        + replace ez with e by (unfold ez; lia).
          replace (e - e) with 0 by lia. change (2 ^ 0) with 1.
          assert (Hk : 2 ^ 1 <= 2 ^ (-52 - e)) by (apply Z.pow_le_mono_r; lia).
          change (2 ^ 1) with 2 in Hk.
          generalize dependent (2 ^ (-52 - e)). intros k Hk. lia.
        + unfold ez. change (Z.min (-52) (-52)) with (-52).
          change (-52 - -52) with 0. change (2 ^ 0) with 1. lia. }
    generalize dependent (Zpos m * 2 ^ (e - ez)). intros b Hb.
    apply normalize_within; [lia| |lia].
    assert (Hd : Zdigits2 (2 ^ (- ez) - b) <= - ez + 1).
    { apply Zdigits2_le; [|lia]. split; [lia|].
      rewrite Z.pow_add_r by lia. change (2 ^ 1) with 2.
      pose proof (Z.pow_pos_nonneg 2 (- ez) ltac:(lia) ltac:(lia)). lia. }
    pose proof (Zdigits2_nonneg (2 ^ (- ez) - b)).
    unfold fexp, emin, prec, emax. lia.
Qed.

Lemma mul_within (x y : float) :
  within 948 x -> within (-51) y ->
  within 951 (SFmul prec emax x y).
Proof.
  destruct x as [sx|sx| |sx mx ex], y as [sy|sy| |sy my ey]; simpl;
    try contradiction; try (intros; exact I).
  intros [Hex Hmx] [Hey Hmy].
  apply round_aux_within; [lia| |lia].
  assert (Hd : Zdigits2 (Zpos (mx * my)) <= 106).
  { apply Zdigits2_le; [|lia]. split; [lia|].
    rewrite Pos2Z.inj_mul. change (2 ^ 106) with (2 ^ 53 * 2 ^ 53).
    apply Z.mul_lt_mono_nonneg; lia. }
  pose proof (Zdigits2_nonneg (Zpos (mx * my))).
  unfold fexp, emin, prec, emax. lia.
Qed.

Lemma floor_of_float_within (bound : Z) (x : float) :
  within bound x -> exists z, Spec.floor_of_float x = Ok z.
Proof.
  destruct x; simpl; intros H; try contradiction; eexists; reflexivity.
Qed.

(** C6. [compute_budget] returns [max_tokens] unchanged when there is no
    ratio; when the ratio is strictly between 0 and 1 it returns the floor
    of [max_tokens * (1 - response_ratio)], computed in floats; for every
    other ratio it fails with the error of an invalid configuration.
    [compute_budget(200, 0.3) = 140] and [compute_budget(200, None) = 200]. *)
Theorem calculate_chunk_size_is_compute_budget (max_tokens : Z) (ratio : float) :
  0 <= max_tokens ->
  valid_binary prec emax ratio = true ->
  _calculate_chunk_size max_tokens None = Ok max_tokens
  /\ (Spec.in_open_unit_interval ratio = false ->
      _calculate_chunk_size max_tokens (Some ratio)
      = Raise Spec.InvalidConfiguration)
  /\ (Spec.in_open_unit_interval ratio = true ->
      _calculate_chunk_size max_tokens (Some ratio)
      = (m <- float_of_int max_tokens ;;
         Spec.floor_of_float
           (SFmul prec emax m (SFsub prec emax float_one ratio)))
      /\ (max_tokens < 2 ^ 1000 ->
          exists budget,
            _calculate_chunk_size max_tokens (Some ratio) = Ok budget))
  /\ _calculate_chunk_size 200 (Some three_tenths) = Ok 140
  /\ _calculate_chunk_size 200 None = Ok 200.
Proof.
  intros Hmax Hvalid.
  split; [reflexivity|].
  split; [|split; [|split; vm_compute; reflexivity]].
  - intros Hout. unfold _calculate_chunk_size.
    fold (Spec.in_open_unit_interval ratio). rewrite Hout. reflexivity.
  - intros Hin.
    assert (Hcode : _calculate_chunk_size max_tokens (Some ratio)
                    = (m <- float_of_int max_tokens ;;
                       int_of_float
                         (SFmul prec emax m (SFsub prec emax float_one ratio)))).
    { unfold _calculate_chunk_size.
      fold (Spec.in_open_unit_interval ratio). rewrite Hin. reflexivity. }
    pose proof (one_minus_ratio_sign ratio Hvalid Hin) as Hd.
    split.
    + rewrite Hcode. unfold float_of_int.
      pose proof (normalize_sign max_tokens 0 Hmax) as Hm.
      destruct (binary_normalize prec emax max_tokens 0 false) as [s|s| |s m e];
        cbn [bind]; try reflexivity;
        apply int_of_float_floor, mul_sign; assumption.
    + intros Hlt.
      destruct (float_of_int_within max_tokens (conj Hmax Hlt))
        as (m & Hm & Hwm & Hsm).
      pose proof (mul_within _ _ Hwm (one_minus_ratio_within ratio Hvalid Hin))
        as Hw.
      destruct (floor_of_float_within _ _ Hw) as (budget & Hbudget).
      exists budget. rewrite Hcode, Hm. cbn [bind].
      rewrite (int_of_float_floor _ (mul_sign _ _ Hsm Hd)). exact Hbudget.
Qed.

Lemma calculate_chunk_size_is_compute_budget_witness :
  _calculate_chunk_size 2048 None = Ok 2048
  /\ (exists budget, _calculate_chunk_size 2048 (Some three_tenths) = Ok budget)
  /\ _calculate_chunk_size 200 (Some three_tenths) = Ok 140
  /\ _calculate_chunk_size 200 None = Ok 200.
Proof.
  destruct (calculate_chunk_size_is_compute_budget 2048 three_tenths
              ltac:(vm_compute; intro H; discriminate H)
              ltac:(vm_compute; reflexivity))
    as (Hnone & _ & Hin & H140 & H200).
  split; [exact Hnone|].
  split; [|split; assumption].
  apply (Hin ltac:(vm_compute; reflexivity)). reflexivity.
Defined.

(** * Further properties of the code *)

(** ** [_count_tokens] *)

Lemma flush_counts (run : str) :
  sum (map _count_tokens (flush run)) = _count_tokens (rev run).
Proof. destruct run; simpl; [reflexivity | lia]. Qed.

Lemma split_from_counts (text : str) :
  forall run,
    sum (map _count_tokens (split_from run text)) = _count_tokens (rev run ++ text).
Proof.
  induction text as [|c text IH]; intros run; simpl.
  - rewrite app_nil_r. apply flush_counts.
  - destruct (is_space c) eqn:Hc.
    + rewrite map_app, sum_app, flush_counts, (IH []).
      rewrite (count_tokens_app_space _ _ c Hc). reflexivity.
    + rewrite (IH (c :: run)). simpl. rewrite <- app_assoc. reflexivity.
Qed.

Lemma count_tokens_words (text : str) :
  _count_tokens text = sum (map _count_tokens (str_split text)).
Proof. symmetry. apply (split_from_counts text []). Qed.

(** X1. Tokens never straddle whitespace: the token count of a text is the
    sum of the token counts of its whitespace-separated words. *)
Theorem count_tokens_is_sum_over_words (text : str) :
  _count_tokens text = sum (map _count_tokens (str_split text)).
Proof. apply count_tokens_words. Qed.

Lemma token_costs_ge_length (tokens : list str) :
  len tokens <= sum (map token_cost tokens).
Proof.
  unfold len. induction tokens as [|t ts IH]; simpl List.length; simpl map; simpl sum.
  - reflexivity.
  - pose proof (token_cost_pos t). lia.
Qed.

Lemma findall_from_nonempty (text : str) :
  forall run, run <> [] -> findall_from run text <> [].
Proof.
  induction text as [|c text IH]; intros run Hrun; simpl.
  - rewrite (flush_nonempty run Hrun). discriminate.
  - destruct (is_word c).
    + apply IH. discriminate.
    + rewrite (flush_nonempty run Hrun). discriminate.
Qed.

Lemma single_word_count_pos (w : str) :
  Spec.single_word w = true -> 1 <= _count_tokens w.
Proof.
  intros H. apply single_word_no_space in H as [Hne Hns].
  destruct w as [|c w]; [congruence|].
  simpl in Hns. apply andb_true_iff in Hns as [Hc _]. apply negb_true_iff in Hc.
  unfold _count_tokens, findall.
  pose proof (token_costs_ge_length (findall_from [] (c :: w))) as Hlen.
  assert (Hne' : findall_from [] (c :: w) <> []).
  { simpl. destruct (is_word c).
    - apply findall_from_nonempty. discriminate.
    - rewrite Hc. discriminate. }
  destruct (findall_from [] (c :: w)) as [|t ts]; [congruence|].
  unfold len in Hlen. simpl List.length in Hlen. lia.
Qed.

Lemma words_count_ge_length (ws : list str) :
  Forall (fun w => Spec.single_word w = true) ws ->
  len ws <= sum (map _count_tokens ws).
Proof.
  unfold len. induction 1 as [|w ws Hw _ IH]; simpl List.length; simpl map; simpl sum.
  - reflexivity.
  - pose proof (single_word_count_pos w Hw). lia.
Qed.

Lemma token_cost_le_length (t : str) : t <> [] -> token_cost t <= len t.
Proof.
  intros Hne. unfold token_cost, len.
  destruct t as [|c t]; [congruence|]. simpl List.length.
  pose proof (Z.div_le_upper_bound (Z.of_nat (S (List.length t))) 5
                (Z.of_nat (S (List.length t))) ltac:(lia) ltac:(lia)).
  lia.
Qed.

Lemma flush_costs (run : str) :
  sum (map token_cost (flush run)) <= len run.
Proof.
  destruct run as [|c run]; [unfold len; simpl; lia|].
  assert (Hne : rev (c :: run) <> []).
  { intros E. apply (f_equal (@List.length ascii)) in E.
    rewrite length_rev in E. discriminate E. }
  pose proof (token_cost_le_length (rev (c :: run)) Hne) as H.
  unfold len in H. rewrite length_rev in H.
  change (flush (c :: run)) with [rev (c :: run)].
  unfold len. cbn [map sum fold_right]. lia.
Qed.

Lemma findall_from_costs (text : str) :
  forall run,
    sum (map token_cost (findall_from run text)) <= len run + len text.
Proof.
  unfold len. induction text as [|c text IH]; intros run; cbn [findall_from].
  - pose proof (flush_costs run) as Hf. unfold len in Hf.
    change (Z.of_nat (List.length (@nil ascii))) with 0. lia.
  - change (List.length (c :: text)) with (S (List.length text)).
    rewrite Nat2Z.inj_succ.
    destruct (is_word c).
    + specialize (IH (c :: run)).
      change (List.length (c :: run)) with (S (List.length run)) in IH.
      rewrite Nat2Z.inj_succ in IH. lia.
    + rewrite !map_app, !sum_app.
      pose proof (flush_costs run) as Hf. unfold len in Hf.
      specialize (IH []).
      change (Z.of_nat (List.length (@nil ascii))) with 0 in IH.
      assert (Hc : sum (map token_cost (if is_space c then [] else [[c]])) <= 1)
        by (destruct (is_space c); vm_compute; discriminate).
      unfold str in *. lia.
Qed.

(** X2. The token count of a text lies between its number of words and
    its number of characters, and it is zero exactly when the text has no
    word (it is empty or all whitespace). *)
Theorem count_tokens_bounds (text : str) :
  len (str_split text) <= _count_tokens text <= len text
  /\ (_count_tokens text = 0 <-> str_split text = []).
Proof.
  pose proof (words_count_ge_length _ (str_split_single_words text)) as Hlow.
  rewrite <- count_tokens_words in Hlow.
  pose proof (findall_from_costs text []) as Hup.
  split; [split; [exact Hlow | exact Hup]|].
  split.
  - intros H0. destruct (str_split text); [reflexivity|].
    unfold len in Hlow. simpl List.length in Hlow. lia.
  - intros E. rewrite count_tokens_words, E. reflexivity.
Qed.

(** ** [_extract_last_chunk_end] *)

Lemma sum_counts_nonneg (pieces : list str) : 0 <= sum (map _count_tokens pieces).
Proof.
  induction pieces as [|x xs IH]; simpl; [lia|].
  pose proof (count_tokens_nonneg x). lia.
Qed.

Lemma sum_counts_rev (pieces : list str) :
  sum (map _count_tokens (rev pieces)) = sum (map _count_tokens pieces).
Proof.
  induction pieces as [|x xs IH]; simpl; [reflexivity|].
  rewrite sum_counts_snoc, IH. lia.
Qed.

Lemma extract_is_keep_backward (text : str) (bound : Z) :
  _extract_last_chunk_end text bound
  = join [SP] (Spec.keep_backward bound 0 (rev (str_split text))).
Proof.
  unfold _extract_last_chunk_end.
  rewrite tail_loop_keep_backward, app_nil_r. reflexivity.
Qed.

Lemma keep_backward_negative (bound : Z) (backward : list str) :
  forall running, bound < running -> Spec.keep_backward bound running backward = [].
Proof.
  destruct backward as [|w ws]; intros running H; simpl; [reflexivity|].
  pose proof (count_tokens_nonneg w).
  replace (running + _count_tokens w <=? bound) with false
    by (symmetry; apply Z.leb_gt; lia).
  reflexivity.
Qed.

(** X3. The tail never counts more tokens than the bound allows: at most
    [bound] tokens, and nothing at all when the bound is negative. *)
Theorem extract_tail_within_bound (response_text : str) (bound : Z) :
  _count_tokens (_extract_last_chunk_end response_text bound) <= Z.max 0 bound
  /\ (bound < 0 -> _extract_last_chunk_end response_text bound = []).
Proof.
  split.
  - destruct (Z_lt_ge_dec bound 0) as [Hneg | Hpos].
    + rewrite extract_is_keep_backward, keep_backward_negative by lia.
      change (_count_tokens (join [SP] [])) with 0. lia.
    + pose proof (extract_last_chunk_end_bounded response_text bound ltac:(lia)).
      lia.
  - intros Hneg.
    rewrite extract_is_keep_backward, keep_backward_negative by lia.
    reflexivity.
Qed.

Lemma keep_backward_prefix (bound : Z) (backward : list str) :
  forall running,
  exists taken rest,
    backward = taken ++ rest
    /\ Spec.keep_backward bound running backward = rev taken
    /\ (rest = []
        \/ exists w rest',
             rest = w :: rest'
             /\ running + sum (map _count_tokens taken) + _count_tokens w > bound).
Proof.
  induction backward as [|w ws IH]; intros running.
  - exists [], []. repeat split. left. reflexivity.
  - simpl. destruct (running + _count_tokens w <=? bound) eqn:Hfit.
    + destruct (IH (running + _count_tokens w)) as (taken & rest & Hbw & Hkeep & Hmax).
      exists (w :: taken), rest. split; [rewrite Hbw; reflexivity|].
      split; [rewrite Hkeep; reflexivity|].
      destruct Hmax as [-> | (w' & rest' & -> & Hover)]; [left; reflexivity|].
      right. exists w', rest'. split; [reflexivity|]. simpl. lia.
    + apply Z.leb_gt in Hfit.
      exists [], (w :: ws). repeat split. right. exists w, ws.
      split; [reflexivity|]. simpl. lia.
Qed.

(** X4. The tail is made of the last words of the response, in order, and
    it is as long as the bound permits: either every word is kept, or the
    word just before the kept ones would take the count over the bound. *)
Theorem extract_tail_is_maximal_suffix (response_text : str) (bound : Z) :
  exists dropped kept,
    str_split response_text = dropped ++ kept
    /\ _extract_last_chunk_end response_text bound = join [SP] kept
    /\ (dropped = []
        \/ exists earlier w,
             dropped = earlier ++ [w]
             /\ sum (map _count_tokens kept) + _count_tokens w > bound).
Proof.
  destruct (keep_backward_prefix bound (rev (str_split response_text)) 0)
    as (taken & rest & Hbw & Hkeep & Hmax).
  exists (rev rest), (rev taken).
  split.
  - rewrite <- rev_app_distr, <- Hbw, rev_involutive. reflexivity.
  - split.
    + rewrite extract_is_keep_backward, Hkeep. reflexivity.
    + destruct Hmax as [-> | (w & rest' & -> & Hover)]; [left; reflexivity|].
      right. exists (rev rest'), w. split; [reflexivity|].
      rewrite sum_counts_rev. lia.
Qed.

Lemma keep_backward_all (bound : Z) (backward : list str) :
  forall running,
    running + sum (map _count_tokens backward) <= bound ->
    Spec.keep_backward bound running backward = rev backward.
Proof.
  induction backward as [|w ws IH]; intros running Hfit; simpl in *; [reflexivity|].
  pose proof (sum_counts_nonneg ws).
  replace (running + _count_tokens w <=? bound) with true
    by (symmetry; apply Z.leb_le; lia).
  rewrite IH by lia. reflexivity.
Qed.

Lemma extract_of_fitting_words (ws : list str) (bound : Z) :
  Forall (fun w => Spec.single_word w = true) ws ->
  sum (map _count_tokens ws) <= bound ->
  _extract_last_chunk_end (join [SP] ws) bound = join [SP] ws.
Proof.
  intros Hws Hfit.
  rewrite extract_is_keep_backward, str_split_join, (concat_split_words ws Hws).
  rewrite keep_backward_all, rev_involutive; [reflexivity|].
  rewrite sum_counts_rev. lia.
Qed.

(** X5. A response that fits within the bound is carried whole: the tail is
    the response with its whitespace normalized. *)
Theorem extract_tail_of_fitting_response (response_text : str) (bound : Z) :
  _count_tokens response_text <= bound ->
  _extract_last_chunk_end response_text bound = Spec.normalize response_text.
Proof.
  intros Hfit. rewrite normalize_words, extract_is_keep_backward.
  rewrite keep_backward_all, rev_involutive; [reflexivity|].
  rewrite sum_counts_rev, <- count_tokens_words. lia.
Qed.

Lemma extract_tail_of_fitting_response_witness :
  _extract_last_chunk_end (lit " some  content. ") 3
  = Spec.normalize (lit " some  content. ").
Proof.
  exact (extract_tail_of_fitting_response (lit " some  content. ") 3
           ltac:(vm_compute; intro H; discriminate H)).
Defined.

Lemma keep_backward_single_words (bound : Z) (backward : list str) :
  Forall (fun w => Spec.single_word w = true) backward ->
  forall running,
    Forall (fun w => Spec.single_word w = true)
      (Spec.keep_backward bound running backward).
Proof.
  induction 1 as [|w ws Hw _ IH]; intros running; simpl; [constructor|].
  destruct (running + _count_tokens w <=? bound); [|constructor].
  apply Forall_app. split; [apply IH | constructor; [exact Hw | constructor]].
Qed.

(** X6. Extracting the tail of a tail changes nothing: what was carried
    once is carried again unchanged under the same bound. *)
Theorem extract_tail_idempotent (response_text : str) (bound : Z) :
  _extract_last_chunk_end (_extract_last_chunk_end response_text bound) bound
  = _extract_last_chunk_end response_text bound.
Proof.
  destruct (Z_lt_ge_dec bound 0) as [Hneg | Hpos].
  - rewrite (extract_is_keep_backward response_text),
      (keep_backward_negative bound _ 0) by lia.
    rewrite extract_is_keep_backward, keep_backward_negative by lia.
    reflexivity.
  - rewrite (extract_is_keep_backward response_text).
    apply extract_of_fitting_words.
    + apply keep_backward_single_words, Forall_rev, str_split_single_words.
    + pose proof (keep_backward_bounded bound (rev (str_split response_text)) 0
                    ltac:(lia)).
      lia.
Qed.

(** ** [_split_into_chunks] *)

Lemma sum_counts_concat (groups : list (list str)) :
  sum (map _count_tokens (List.concat groups))
  = sum (map (fun g => sum (map _count_tokens g)) groups).
Proof.
  induction groups as [|g gs IH]; simpl; [reflexivity|].
  rewrite map_app, sum_app, IH. reflexivity.
Qed.

Lemma sum_counts_of_words (pieces : list str) :
  sum (map _count_tokens pieces)
  = sum (map _count_tokens (List.concat (map str_split pieces))).
Proof.
  rewrite sum_counts_concat, map_map.
  induction pieces as [|x xs IH]; simpl; [reflexivity|].
  rewrite <- count_tokens_words, IH. reflexivity.
Qed.

Lemma count_tokens_lines (context : str) :
  sum (map _count_tokens (str_splitlines context)) = _count_tokens context.
Proof.
  rewrite sum_counts_of_words, str_splitlines_words, <- count_tokens_words.
  reflexivity.
Qed.

(** X7. Splitting neither loses nor gains tokens: with a positive
    effective budget, the token counts of the chunks add up to the token
    count of the context. *)
Theorem split_preserves_token_total (self : BaseAIProcessor)
    (context last_chunk_end : str) (include_last_chunk : bool) :
  0 < effective_budget self last_chunk_end include_last_chunk ->
  exists cs,
    _split_into_chunks self context last_chunk_end include_last_chunk = Ok cs
    /\ sum (map _count_tokens cs) = _count_tokens context.
Proof.
  intros Hpos.
  pose proof (split_into_chunks_returns self context last_chunk_end
                include_last_chunk Hpos) as Hcs.
  eexists. split; [exact Hcs|].
  rewrite sum_counts_of_words, <- str_split_join.
  rewrite (split_keeps_words _ _ _ _ _ Hcs), <- count_tokens_words.
  reflexivity.
Qed.

Lemma split_preserves_token_total_witness :
  exists cs,
    _split_into_chunks
      {| max_tokens := 200; response_ratio := None; chunk_size := 2 |}
      (lit "ab cd ef abcdefghijklmno gh") (lit "x") true
    = Ok cs
    /\ sum (map _count_tokens cs) = _count_tokens (lit "ab cd ef abcdefghijklmno gh").
Proof.
  exact (split_preserves_token_total
           {| max_tokens := 200; response_ratio := None; chunk_size := 2 |}
           (lit "ab cd ef abcdefghijklmno gh") (lit "x") true
           ltac:(vm_compute; reflexivity)).
Defined.

Section Packing.

Variable budget : Z.

Lemma adjacent_over_snoc (cs : list str) (x y : str) :
  adjacent_over budget (cs ++ [x]) ->
  _count_tokens x + _count_tokens y > budget ->
  adjacent_over budget ((cs ++ [x]) ++ [y]).
Proof.
  intros Hadj Hxy. induction cs as [|a cs IH].
  - simpl. repeat split. exact Hxy.
  - destruct Hadj as [Hhead Htail]. specialize (IH Htail).
    split; [|exact IH].
    destruct cs as [|b cs]; simpl in *; exact Hhead.
Qed.

Lemma adjacent_over_grow (cs : list str) (x y : str) :
  adjacent_over budget (cs ++ [x]) ->
  _count_tokens x <= _count_tokens y ->
  adjacent_over budget (cs ++ [y]).
Proof.
  intros Hadj Hxy. induction cs as [|a cs IH].
  - simpl. repeat split.
  - destruct Hadj as [Hhead Htail]. specialize (IH Htail).
    split; [|exact IH].
    destruct cs as [|b cs]; simpl in *; [lia | exact Hhead].
Qed.

Lemma adjacent_over_init (cs : list str) (x : str) :
  adjacent_over budget (cs ++ [x]) -> adjacent_over budget cs.
Proof.
  intros Hadj. induction cs as [|a cs IH]; [exact I|].
  destruct Hadj as [Hhead Htail]. specialize (IH Htail).
  split; [|exact IH].
  destruct cs as [|b cs]; simpl in *; [exact I | exact Hhead].
Qed.

Lemma adjacent_over_pair (pre : list str) (a b : str) (post : list str) :
  adjacent_over budget (pre ++ a :: b :: post) ->
  _count_tokens a + _count_tokens b > budget.
Proof.
  induction pre as [|x pre IH]; intros H.
  - destruct H as [H _]. exact H.
  - destruct H as [_ H]. apply IH, H.
Qed.

(** The pending chunk counts as the last chunk. *)
Lemma word_or_line_packed (st : split_state) (piece : str) :
  current_token_count st = sum (map _count_tokens (current_chunk st)) ->
  adjacent_over budget (chunks st ++ [join [SP] (current_chunk st)]) ->
  let st' :=
    if current_token_count st + _count_tokens piece >? budget then
      {| chunks := chunks st ++ [join [SP] (current_chunk st)];
         current_chunk := [piece];
         current_token_count := _count_tokens piece |}
    else
      {| chunks := chunks st;
         current_chunk := current_chunk st ++ [piece];
         current_token_count := current_token_count st + _count_tokens piece |} in
  current_token_count st' = sum (map _count_tokens (current_chunk st'))
  /\ adjacent_over budget (chunks st' ++ [join [SP] (current_chunk st')]).
Proof.
  intros Hcount Hadj.
  destruct (current_token_count st + _count_tokens piece >? budget) eqn:Hcmp;
    cbn zeta; cbn [chunks current_chunk current_token_count].
  - split; [simpl; lia|].
    apply adjacent_over_snoc; [exact Hadj|].
    rewrite count_tokens_join, <- Hcount. simpl. lia.
  - split; [rewrite sum_counts_snoc, Hcount; reflexivity|].
    apply (adjacent_over_grow _ _ _ Hadj).
    rewrite !count_tokens_join, sum_counts_snoc.
    pose proof (count_tokens_nonneg piece). lia.
Qed.

Lemma word_step_packed (st : split_state) (word : str) :
  current_token_count st = sum (map _count_tokens (current_chunk st))
  /\ adjacent_over budget (chunks st ++ [join [SP] (current_chunk st)]) ->
  current_token_count (word_step budget st word)
  = sum (map _count_tokens (current_chunk (word_step budget st word)))
  /\ adjacent_over budget
       (chunks (word_step budget st word)
          ++ [join [SP] (current_chunk (word_step budget st word))]).
Proof. intros [Hcount Hadj]. apply (word_or_line_packed st word Hcount Hadj). Qed.

Lemma words_fold_packed (words : list str) :
  forall st,
    current_token_count st = sum (map _count_tokens (current_chunk st))
    /\ adjacent_over budget (chunks st ++ [join [SP] (current_chunk st)]) ->
    current_token_count (fold_left (word_step budget) words st)
    = sum (map _count_tokens
             (current_chunk (fold_left (word_step budget) words st)))
    /\ adjacent_over budget
         (chunks (fold_left (word_step budget) words st)
            ++ [join [SP]
                  (current_chunk (fold_left (word_step budget) words st))]).
Proof.
  induction words as [|w ws IH]; intros st H; simpl; [exact H|].
  apply IH, word_step_packed, H.
Qed.

Lemma line_step_packed (st : split_state) (line : str) :
  current_token_count st = sum (map _count_tokens (current_chunk st))
  /\ adjacent_over budget (chunks st ++ [join [SP] (current_chunk st)]) ->
  current_token_count (line_step budget st line)
  = sum (map _count_tokens (current_chunk (line_step budget st line)))
  /\ adjacent_over budget
       (chunks (line_step budget st line)
          ++ [join [SP] (current_chunk (line_step budget st line))]).
Proof.
  intros H. unfold line_step.
  destruct (_count_tokens line >? budget).
  - apply words_fold_packed, H.
  - destruct H as [Hcount Hadj]. apply (word_or_line_packed st line Hcount Hadj).
Qed.

Lemma lines_fold_packed (lines : list str) :
  forall st,
    current_token_count st = sum (map _count_tokens (current_chunk st))
    /\ adjacent_over budget (chunks st ++ [join [SP] (current_chunk st)]) ->
    adjacent_over budget (split_finish (fold_left (line_step budget) lines st)).
Proof.
  induction lines as [|l ls IH]; intros st H; simpl.
  - destruct H as [_ Hadj]. unfold split_finish.
    destruct (current_chunk st); [apply (adjacent_over_init _ _ Hadj) | exact Hadj].
  - apply IH, line_step_packed, H.
Qed.

End Packing.

(** X8. The chunks are packed greedily: with a positive effective budget,
    any two neighbouring chunks together count more tokens than the budget,
    so no two neighbours could have been one chunk. *)
Theorem split_neighbours_exceed_budget (self : BaseAIProcessor)
    (context last_chunk_end : str) (include_last_chunk : bool) :
  0 < effective_budget self last_chunk_end include_last_chunk ->
  exists cs,
    _split_into_chunks self context last_chunk_end include_last_chunk = Ok cs
    /\ forall pre a b post,
         cs = pre ++ a :: b :: post ->
         _count_tokens a + _count_tokens b
         > effective_budget self last_chunk_end include_last_chunk.
Proof.
  intros Hpos. eexists. split; [apply split_into_chunks_returns, Hpos|].
  intros pre a b post E.
  apply (adjacent_over_pair _ pre a b post). rewrite <- E.
  apply lines_fold_packed. split; [reflexivity | simpl; auto].
Qed.

Lemma split_neighbours_exceed_budget_witness :
  exists cs,
    _split_into_chunks
      {| max_tokens := 200; response_ratio := None; chunk_size := 2 |}
      (lit "ab cd ef abcdefghijklmno gh") [] false
    = Ok cs
    /\ forall pre a b post,
         cs = pre ++ a :: b :: post ->
         _count_tokens a + _count_tokens b > 2.
Proof.
  exact (split_neighbours_exceed_budget
           {| max_tokens := 200; response_ratio := None; chunk_size := 2 |}
           (lit "ab cd ef abcdefghijklmno gh") [] false
           ltac:(vm_compute; reflexivity)).
Defined.

Lemma count_le_sum (lines : list str) (line : str) :
  In line lines -> _count_tokens line <= sum (map _count_tokens lines).
Proof.
  induction lines as [|l ls IH]; intros Hin; [contradiction|].
  simpl. pose proof (sum_counts_nonneg ls). pose proof (count_tokens_nonneg l).
  destruct Hin as [-> | Hin]; [lia | specialize (IH Hin); lia].
Qed.

Lemma lines_fold_fitting (budget : Z) (lines : list str) :
  forall done,
    sum (map _count_tokens done) + sum (map _count_tokens lines) <= budget ->
    fold_left (line_step budget) lines
      {| chunks := []; current_chunk := done;
         current_token_count := sum (map _count_tokens done) |}
    = {| chunks := []; current_chunk := done ++ lines;
         current_token_count := sum (map _count_tokens (done ++ lines)) |}.
Proof.
  induction lines as [|l ls IH]; intros done Hfit; simpl in *.
  - rewrite app_nil_r. reflexivity.
  - pose proof (sum_counts_nonneg ls). pose proof (sum_counts_nonneg done).
    pose proof (count_tokens_nonneg l).
    unfold line_step. cbn [chunks current_chunk current_token_count].
    replace (_count_tokens l >? budget) with false
      by (symmetry; rewrite Z.gtb_ltb; apply Z.ltb_ge; lia).
    replace (sum (map _count_tokens done) + _count_tokens l >? budget) with false
      by (symmetry; rewrite Z.gtb_ltb; apply Z.ltb_ge; lia).
    rewrite <- sum_counts_snoc, IH by (rewrite sum_counts_snoc; lia).
    rewrite <- app_assoc. reflexivity.
Qed.

(** X9. A context that fits the effective budget is not split: the result
    is its lines joined by single spaces as one chunk, and no chunk at all
    when the context has no line. *)
Theorem split_of_fitting_context (self : BaseAIProcessor)
    (context last_chunk_end : str) (include_last_chunk : bool) :
  0 < effective_budget self last_chunk_end include_last_chunk ->
  _count_tokens context
  <= effective_budget self last_chunk_end include_last_chunk ->
  _split_into_chunks self context last_chunk_end include_last_chunk
  = Ok (match str_splitlines context with
        | [] => []
        | lines => [join [SP] lines]
        end).
Proof.
  intros Hpos Hfit.
  rewrite (split_into_chunks_returns _ _ _ _ Hpos). f_equal.
  rewrite <- count_tokens_lines in Hfit.
  change split_start
    with {| chunks := []; current_chunk := [];
            current_token_count := sum (map _count_tokens []) |}.
  rewrite lines_fold_fitting by (simpl; lia).
  unfold split_finish. cbn [chunks current_chunk app].
  destruct (str_splitlines context); reflexivity.
Qed.

Lemma split_of_fitting_context_witness :
  _split_into_chunks
    {| max_tokens := 200; response_ratio := None; chunk_size := 140 |}
    (lit "Hello, how are you?" ++ [LF] ++ lit "I am fine, thank you!") [] true
  = Ok [lit "Hello, how are you? I am fine, thank you!"].
Proof.
  exact (split_of_fitting_context
           {| max_tokens := 200; response_ratio := None; chunk_size := 140 |}
           (lit "Hello, how are you?" ++ [LF] ++ lit "I am fine, thank you!")
           [] true
           ltac:(vm_compute; reflexivity)
           ltac:(vm_compute; intro H; discriminate H)).
Defined.

Section WholeLines.

Variable budget : Z.

(** The closed chunks are joins of groups of whole lines, none of them
    empty, and groups and pending lines together are the lines read. *)
Lemma line_step_groups (st : split_state) (line : str)
    (groups : list (list str)) (seen : list str) :
  _count_tokens line <= budget ->
  chunks st = map (join [SP]) groups ->
  List.concat groups ++ current_chunk st = seen ->
  Forall (fun g => g <> []) groups ->
  current_token_count st = sum (map _count_tokens (current_chunk st)) ->
  exists groups',
    chunks (line_step budget st line) = map (join [SP]) groups'
    /\ List.concat groups' ++ current_chunk (line_step budget st line)
       = seen ++ [line]
    /\ Forall (fun g => g <> []) groups'
    /\ current_token_count (line_step budget st line)
       = sum (map _count_tokens (current_chunk (line_step budget st line))).
Proof.
  intros Hline Hchunks Hseen Hne Hcount. unfold line_step.
  replace (_count_tokens line >? budget) with false
    by (symmetry; rewrite Z.gtb_ltb; apply Z.ltb_ge; lia).
  destruct (current_token_count st + _count_tokens line >? budget) eqn:Hcmp;
    cbn [chunks current_chunk current_token_count].
  - exists (groups ++ [current_chunk st]).
    split; [rewrite map_app, Hchunks; reflexivity|].
    split; [rewrite concat_app; simpl; rewrite app_nil_r, Hseen; reflexivity|].
    split; [|simpl; lia].
    apply Forall_app. split; [exact Hne|]. constructor; [|constructor].
    intros E. rewrite E in Hcount. simpl in Hcount.
    apply Z.gtb_lt in Hcmp. lia.
  - exists groups.
    split; [exact Hchunks|].
    split; [rewrite app_assoc, Hseen; reflexivity|].
    split; [exact Hne|].
    rewrite sum_counts_snoc, Hcount. reflexivity.
Qed.

Lemma lines_fold_groups (lines : list str) :
  Forall (fun line => _count_tokens line <= budget) lines ->
  forall st groups seen,
    chunks st = map (join [SP]) groups ->
    List.concat groups ++ current_chunk st = seen ->
    Forall (fun g => g <> []) groups ->
    current_token_count st = sum (map _count_tokens (current_chunk st)) ->
    exists groups',
      split_finish (fold_left (line_step budget) lines st)
      = map (join [SP]) groups'
      /\ List.concat groups' = seen ++ lines
      /\ Forall (fun g => g <> []) groups'.
Proof.
  induction 1 as [|l ls Hl _ IH]; intros st groups seen Hchunks Hseen Hne Hcount.
  - simpl. unfold split_finish. destruct (current_chunk st) as [|p ps] eqn:Hcur.
    + exists groups. rewrite app_nil_r in *. repeat split; assumption.
    + exists (groups ++ [p :: ps]).
      split; [rewrite map_app, Hchunks; reflexivity|].
      split; [rewrite concat_app; simpl; rewrite !app_nil_r; exact Hseen|].
      apply Forall_app. split; [exact Hne | constructor; [discriminate | constructor]].
  - simpl.
    destruct (line_step_groups st l groups seen Hl Hchunks Hseen Hne Hcount)
      as (groups' & Hchunks' & Hseen' & Hne' & Hcount').
    destruct (IH _ _ _ Hchunks' Hseen' Hne' Hcount') as (gs & Hfin & Hcat & Hgs).
    exists gs. rewrite <- app_assoc in Hcat. repeat split; assumption.
Qed.

End WholeLines.

(** X10. When no line of the context counts more than the effective
    budget, no line is broken: the chunks are the joins of consecutive
    groups of whole lines, every group holding at least one line. *)
Theorem split_keeps_fitting_lines_whole (self : BaseAIProcessor)
    (context last_chunk_end : str) (include_last_chunk : bool) :
  0 < effective_budget self last_chunk_end include_last_chunk ->
  Forall
    (fun line =>
       _count_tokens line
       <= effective_budget self last_chunk_end include_last_chunk)
    (str_splitlines context) ->
  exists groups,
    _split_into_chunks self context last_chunk_end include_last_chunk
    = Ok (map (join [SP]) groups)
    /\ List.concat groups = str_splitlines context
    /\ Forall (fun g => g <> []) groups.
Proof.
  intros Hpos Hlines.
  rewrite (split_into_chunks_returns _ _ _ _ Hpos).
  destruct (lines_fold_groups _ _ Hlines split_start [] []
              eq_refl eq_refl (Forall_nil _) eq_refl)
    as (groups & Hfin & Hcat & Hne).
  exists groups. rewrite Hfin. repeat split; assumption.
Qed.

Lemma split_keeps_fitting_lines_whole_witness :
  exists groups,
    _split_into_chunks
      {| max_tokens := 200; response_ratio := None; chunk_size := 5 |}
      two_lines [] false
    = Ok (map (join [SP]) groups)
    /\ List.concat groups = str_splitlines two_lines
    /\ Forall (fun g => g <> []) groups.
Proof.
  exact (split_keeps_fitting_lines_whole
           {| max_tokens := 200; response_ratio := None; chunk_size := 5 |}
           two_lines [] false
           ltac:(vm_compute; reflexivity)
           ltac:(repeat constructor; vm_compute; intro H; discriminate H)).
Defined.

(** ** [EmbeddingsProcessor.process] *)

Lemma embeddings_loop_items (post : transport) (context : list str) :
  forall index acc items,
    Embeddings.loop post index context acc = Ok items ->
    exists new,
      items = acc ++ new
      /\ map Embeddings.message new = context
      /\ forall k it,
           nth_error new k = Some it ->
           Embeddings._call_model post (index + k) [] (Embeddings.message it)
           = Ok (Embeddings.embedding it).
Proof.
  induction context as [|message rest IH]; intros index acc items H; simpl in H.
  - injection H as <-. exists []. rewrite app_nil_r. repeat split.
    intros k it Hk. destruct k; discriminate Hk.
  - destruct (Embeddings._call_model post index [] message) as [e|] eqn:Hcall;
      simpl in H; [|discriminate H].
    destruct (IH _ _ _ H) as (new & -> & Hmsg & Hcalls).
    eexists (_ :: new). split; [rewrite <- app_assoc; reflexivity|].
    split; [simpl; rewrite Hmsg; reflexivity|].
    intros [|k] it Hk; simpl in Hk.
    + injection Hk as <-. simpl. rewrite Nat.add_0_r. exact Hcall.
    + replace (index + S k)%nat with (S index + k)%nat by lia.
      apply Hcalls, Hk.
Qed.

(** X11. A successful embedding run returns one item per message, in the
    order of the input, and the embedding of each item is what the call
    made for that message returned. *)
Theorem embeddings_items_follow_messages (post : transport)
    (context : list str) (out : Embeddings.outcome) :
  Embeddings.process post context = Ok out ->
  map Embeddings.message (Embeddings.embeddings out) = context
  /\ forall k it,
       nth_error (Embeddings.embeddings out) k = Some it ->
       Embeddings._call_model post k [] (Embeddings.message it)
       = Ok (Embeddings.embedding it).
Proof.
  unfold Embeddings.process. intros H.
  destruct (Embeddings.loop post 0 context []) as [items|] eqn:Hloop;
    simpl in H; [|discriminate H].
  injection H as <-. simpl.
  destruct (embeddings_loop_items _ _ _ _ _ Hloop) as (new & -> & Hmsg & Hcalls).
  split; [exact Hmsg | exact Hcalls].
Qed.

Lemma embeddings_items_follow_messages_witness :
  map Embeddings.message
    [ {| Embeddings.index := 0;
         Embeddings.message := lit "a";
         Embeddings.embedding := JList [JInt 1; JInt 2] |};
      {| Embeddings.index := 1;
         Embeddings.message := lit "b";
         Embeddings.embedding := JList [JInt 1; JInt 2] |} ]
  = [lit "a"; lit "b"].
Proof.
  exact (proj1
           (embeddings_items_follow_messages
              (constant_post (embedding_reply [JInt 1; JInt 2]))
              [lit "a"; lit "b"] _ eq_refl)).
Defined.

Lemma embeddings_loop_app (post : transport) (pre rest : list str) :
  forall index acc,
    Embeddings.loop post index (pre ++ rest) acc
    = (items <- Embeddings.loop post index pre acc ;;
       Embeddings.loop post (index + List.length pre) rest items).
Proof.
  induction pre as [|m pre IH]; intros index acc; simpl.
  - rewrite Nat.add_0_r. reflexivity.
  - destruct (Embeddings._call_model post index [] m) as [e|]; simpl;
      [|reflexivity].
    rewrite IH. replace (S index + List.length pre)%nat
      with (index + S (List.length pre))%nat by lia.
    reflexivity.
Qed.

(** X12. The embedding run is all or nothing: when the call for some
    message raises, after the calls for the messages before it succeeded,
    [process] raises that same exception and the embeddings already
    obtained are not returned. *)
Theorem embeddings_failure_aborts_run (post : transport)
    (pre : list str) (message : str) (rest : list str)
    (items : list Embeddings.item) (e : exn) :
  Embeddings.loop post 0 pre [] = Ok items ->
  Embeddings._call_model post (List.length pre) [] message = Raise e ->
  Embeddings.process post (pre ++ message :: rest) = Raise e.
Proof.
  intros Hpre Hcall. unfold Embeddings.process.
  rewrite embeddings_loop_app, Hpre. cbn [bind Embeddings.loop Nat.add].
  rewrite Hcall. reflexivity.
Qed.

Lemma embeddings_failure_aborts_run_witness :
  Embeddings.process
    (fun calls _ _ =>
       match calls with
       | O => Ok (embedding_reply [JInt 1])
       | S _ => Ok (JDict [ ("data"%string, JList []) ])
       end)
    ([lit "a"] ++ lit "b" :: [lit "c"])
  = Raise IndexError.
Proof.
  exact (embeddings_failure_aborts_run
           (fun calls _ _ =>
              match calls with
              | O => Ok (embedding_reply [JInt 1])
              | S _ => Ok (JDict [ ("data"%string, JList []) ])
              end)
           [lit "a"] (lit "b") [lit "c"]
           [ {| Embeddings.index := 0;
                Embeddings.message := lit "a";
                Embeddings.embedding := JList [JInt 1] |} ]
           IndexError eq_refl eq_refl).
Defined.

(** ** The two [_call_model] methods *)

Lemma format_with_truncation_loggable (value : json) :
  _format_with_truncation value 50 = Ok tt -> loggable value.
Proof.
  unfold _format_with_truncation, loggable.
  destruct value as [| | | | s|items|fields]; simpl; try discriminate; auto.
  destruct (len fields >? 50) eqn:Hcmp; [discriminate|].
  intros _. rewrite Z.gtb_ltb in Hcmp. apply Z.ltb_ge in Hcmp. exact Hcmp.
Qed.

(** X13. Whatever the endpoint answers, a chat call that returns gives a
    value with a length (a string, a list, or a dict of at most 50
    entries), never [None], a boolean or a number; an embedding call that
    returns gives a string, a list or a dict. *)
Theorem call_model_returns_sized_values (post : transport) (calls : nat)
    (prompt input_text : str) (value : json) :
  (Chat._call_model post calls prompt input_text = Ok value -> loggable value)
  /\ (Embeddings._call_model post calls prompt input_text = Ok value ->
      exists n, py_len value = Ok n).
Proof.
  split.
  - unfold Chat._call_model, Chat.extract.
    destruct (post calls prompt input_text) as [r|]; simpl; [|discriminate].
    destruct (py_get r "choices" _) as [choices|]; simpl; [|discriminate].
    destruct (py_item0 choices) as [first|]; simpl; [|discriminate].
    destruct (py_get first "message" _) as [message|]; simpl; [|discriminate].
    destruct (py_get message "content" _) as [content|]; simpl; [|discriminate].
    destruct (_format_with_truncation content 50) as [[]|] eqn:Hfmt; simpl;
      [|discriminate].
    intros E. injection E as <-. apply format_with_truncation_loggable, Hfmt.
  - unfold Embeddings._call_model, Embeddings.extract.
    destruct (post calls prompt input_text) as [r|]; simpl; [|discriminate].
    destruct (py_get r "data" _) as [data|]; simpl; [|discriminate].
    destruct (py_item0 data) as [first|]; simpl; [|discriminate].
    destruct (py_get first "embedding" _) as [embedding|]; simpl; [|discriminate].
    destruct (py_len embedding) as [n|] eqn:Hlen; simpl; [|discriminate].
    intros E. injection E as <-. exists n. exact Hlen.
Qed.

Lemma call_model_returns_sized_values_witness :
  loggable (JStr (lit "Mock response"))
  /\ exists n, py_len (JList [JInt 1; JInt 2]) = Ok n.
Proof.
  split.
  - exact (proj1
             (call_model_returns_sized_values
                (constant_post (chat_reply (lit "Mock response"))) 0
                (lit "Mock prompt") (lit "Mock input")
                (JStr (lit "Mock response")))
             eq_refl).
  - exact (proj2
             (call_model_returns_sized_values
                (constant_post (embedding_reply [JInt 1; JInt 2])) 0
                [] (lit "a") (JList [JInt 1; JInt 2]))
             eq_refl).
Defined.

(** ** [ChatProcessor.process] *)

Lemma effective_budget_no_tail (self : BaseAIProcessor) (include : bool) :
  effective_budget self [] include = chunk_size self.
Proof.
  unfold effective_budget. destruct include; [|reflexivity].
  change (_count_tokens []) with 0. lia.
Qed.

Lemma split_no_tail (self : BaseAIProcessor) (context : str) (include : bool) :
  _split_into_chunks self context [] include
  = _split_into_chunks self context [] false.
Proof.
  unfold _split_into_chunks. rewrite !effective_budget_no_tail. reflexivity.
Qed.

Lemma reserve_returned (self : BaseAIProcessor) (prompt chunk : str)
    (carried reserved : Z) :
  _calculate_reserved_tokens self prompt chunk carried = Ok reserved ->
  0 < max_tokens self - (_count_tokens prompt + _count_tokens chunk + carried).
Proof.
  intros H.
  destruct (Z_le_gt_dec
              (max_tokens self
               - (_count_tokens prompt + _count_tokens chunk + carried)) 0)
    as [Hle | Hgt]; [|lia].
  rewrite (reserve_fails _ _ _ _ Hle) in H. discriminate H.
Qed.

Section ChatRun.

Variable self : BaseAIProcessor.
Variable post : transport.
Variable format : str -> str -> result str.
Variable p : Chat.prompts.
Variable include : bool.

Lemma chat_step_inversion (index : nat) (chunk : str) (st st' : Chat.state) :
  Chat.step self post format p include index chunk st = Ok st' ->
  exists prompt reserved response,
    Chat.build_prompt format p index st = Ok prompt
    /\ _calculate_reserved_tokens self prompt chunk (Chat.carried_token_count st)
       = Ok reserved
    /\ Chat._call_model post index prompt chunk = Ok response
    /\ Chat.results st'
       = Chat.results st
           ++ [ {| Chat.index := Z.of_nat index + 1;
                   Chat.input_text := chunk;
                   Chat.response_text := response |} ]
    /\ (include = false ->
        Chat.last_chunk_end st' = Chat.last_chunk_end st
        /\ Chat.carried_token_count st' = Chat.carried_token_count st).
Proof.
  unfold Chat.step.
  destruct (Chat.build_prompt format p index st) as [prompt|] eqn:Hprompt;
    simpl; [|discriminate].
  destruct (_calculate_reserved_tokens self prompt chunk
              (Chat.carried_token_count st)) as [reserved|] eqn:Hres; simpl;
    [|discriminate].
  destruct (Chat._call_model post index prompt chunk) as [response|] eqn:Hcall;
    simpl; [|discriminate].
  intros E. exists prompt, reserved, response.
  split; [reflexivity|]. split; [exact Hres|]. split; [exact Hcall|].
  destruct include.
  - destruct (Chat.extract_tail_of response) as [tail|]; simpl in E;
      [|discriminate E].
    injection E as <-. split; [reflexivity|]. intros Hoff. discriminate Hoff.
  - injection E as <-. split; [reflexivity|]. intros _. split; reflexivity.
Qed.

Lemma chat_loop_inputs (chunks : list str) :
  forall index st st',
    Chat.loop self post format p include index chunks st = Ok st' ->
    map Chat.input_text (Chat.results st')
    = map Chat.input_text (Chat.results st) ++ chunks.
Proof.
  induction chunks as [|chunk rest IH]; intros index st st' H; simpl in H.
  - injection H as <-. rewrite app_nil_r. reflexivity.
  - destruct (Chat.step self post format p include index chunk st) as [st1|]
      eqn:Hstep; simpl in H; [|discriminate H].
    destruct (chat_step_inversion _ _ _ _ Hstep)
      as (prompt & reserved & response & _ & _ & _ & Hres & _).
    rewrite (IH _ _ _ H), Hres, map_app, <- app_assoc. reflexivity.
Qed.

(** What every state of a run satisfies. *)
Lemma chat_loop_invariant (chunks : list str) :
  forall index st st',
    Chat.carried_token_count st = _count_tokens (Chat.last_chunk_end st) ->
    _count_tokens (Chat.last_chunk_end st) <= 50 ->
    (include = false -> Chat.last_chunk_end st = []) ->
    Forall (fun it => _count_tokens (Chat.input_text it) < max_tokens self)
      (Chat.results st) ->
    Chat.loop self post format p include index chunks st = Ok st' ->
    Chat.carried_token_count st' = _count_tokens (Chat.last_chunk_end st')
    /\ _count_tokens (Chat.last_chunk_end st') <= 50
    /\ (include = false -> Chat.last_chunk_end st' = [])
    /\ Forall (fun it => _count_tokens (Chat.input_text it) < max_tokens self)
         (Chat.results st').
Proof.
  induction chunks as [|chunk rest IH];
    intros index st st' Hcount Hle Hoff Hfit H; simpl in H.
  - injection H as <-. repeat split; assumption.
  - destruct (Chat.step self post format p include index chunk st) as [st1|]
      eqn:Hstep; simpl in H; [|discriminate H].
    destruct (chat_step_tail self post format p include _ _ _ _ Hcount Hle Hstep)
      as [Hcount1 Hle1].
    destruct (chat_step_inversion _ _ _ _ Hstep)
      as (prompt & reserved & response & _ & Hres & _ & Hitems & Hsame).
    apply (IH (S index) st1 st' Hcount1 Hle1); [| |exact H].
    + intros Hinc. destruct (Hsame Hinc) as [-> _]. apply Hoff, Hinc.
    + rewrite Hitems. apply Forall_app. split; [exact Hfit|].
      constructor; [|constructor]. cbn [Chat.input_text].
      apply reserve_returned in Hres.
      pose proof (count_tokens_nonneg prompt).
      pose proof (count_tokens_nonneg (Chat.last_chunk_end st)).
      lia.
Qed.

End ChatRun.

(** X14. A successful chat run returns one item per chunk, in order: the
    input texts of the items are the chunks of the context split at the
    full chunk size, whatever the options say, because the tail is still
    empty when the context is split. *)
Theorem chat_items_follow_chunks (self : BaseAIProcessor) (post : transport)
    (format : str -> str -> result str) (context : str) (p : Chat.prompts)
    (opts : option Chat.options) (out : Chat.outcome) :
  Chat.process self post format context p opts = Ok out ->
  _split_into_chunks self context [] false
  = Ok (map Chat.input_text (Chat.chunks out)).
Proof.
  unfold Chat.process. rewrite split_no_tail. intros H.
  destruct (_split_into_chunks self context [] false) as [cs|]; simpl in H;
    [|discriminate H].
  destruct (Chat.loop self post format p (Chat.include_flag opts) 0 cs Chat.start)
    as [st|] eqn:Hloop; simpl in H; [|discriminate H].
  injection H as <-. simpl.
  rewrite (chat_loop_inputs _ _ _ _ _ _ _ _ _ Hloop). reflexivity.
Qed.

Lemma chat_items_follow_chunks_witness :
  _split_into_chunks small_chat two_lines [] false
  = Ok [lit "one two three"; lit "four five six"].
Proof.
  exact (chat_items_follow_chunks small_chat (echo_post (lit "a b c"))
           format_plain two_lines example_prompts
           (Some {| Chat.include_last_chunk := Some true;
                    Chat.last_chunk_token_count := Some 1 |})
           {| Chat.status := "success";
              Chat.chunks :=
                [ {| Chat.index := 1;
                     Chat.input_text := lit "one two three";
                     Chat.response_text := JStr (lit "a b c") |};
                  {| Chat.index := 2;
                     Chat.input_text := lit "four five six";
                     Chat.response_text := JStr (lit "Next a b c") |} ] |}
           ltac:(vm_compute; reflexivity)).
Defined.

(** X15. Through a whole chat run the carried count is the token count of
    the carried tail and never exceeds 50; with [include_last_chunk] off
    the tail stays empty, so every follow-up prompt is the template
    formatted with the empty string. *)
Theorem chat_carried_tail_invariant (self : BaseAIProcessor) (post : transport)
    (format : str -> str -> result str) (p : Chat.prompts) (include : bool)
    (chunks : list str) (st : Chat.state) :
  Chat.loop self post format p include 0 chunks Chat.start = Ok st ->
  Chat.carried_token_count st = _count_tokens (Chat.last_chunk_end st)
  /\ 0 <= Chat.carried_token_count st <= 50
  /\ (include = false ->
      Chat.last_chunk_end st = []
      /\ forall index,
           Chat.build_prompt format p (S index) st
           = format (Chat.follow_up_template p) []).
Proof.
  intros Hloop.
  destruct (chat_loop_invariant self post format p include chunks 0 Chat.start st
              eq_refl ltac:(vm_compute; discriminate) (fun _ => eq_refl)
              (Forall_nil _) Hloop)
    as (Hcount & Hle & Hoff & _).
  split; [exact Hcount|].
  split.
  - rewrite Hcount. pose proof (count_tokens_nonneg (Chat.last_chunk_end st)). lia.
  - intros Hinc. split; [apply Hoff, Hinc|].
    intros index. unfold Chat.build_prompt. rewrite (Hoff Hinc). reflexivity.
Qed.

Lemma chat_carried_tail_invariant_witness :
  Chat.carried_token_count
    {| Chat.results :=
         [ {| Chat.index := 1;
              Chat.input_text := lit "one two three";
              Chat.response_text := JStr (lit "a b c") |} ];
       Chat.last_chunk_end := lit "a b c";
       Chat.carried_token_count := 3 |}
  = _count_tokens (lit "a b c").
Proof.
  exact (proj1
           (chat_carried_tail_invariant small_chat (echo_post (lit "a b c"))
              format_plain example_prompts true [lit "one two three"] _
              ltac:(vm_compute; reflexivity))).
Defined.

(** X16. A chat run succeeds only when every chunk leaves room: each
    chunk that was processed counts fewer tokens than [max_tokens]. *)
Theorem chat_success_chunks_below_max_tokens (self : BaseAIProcessor)
    (post : transport) (format : str -> str -> result str) (context : str)
    (p : Chat.prompts) (opts : option Chat.options) (out : Chat.outcome) :
  Chat.process self post format context p opts = Ok out ->
  Forall (fun it => _count_tokens (Chat.input_text it) < max_tokens self)
    (Chat.chunks out).
Proof.
  unfold Chat.process. intros H.
  destruct (_split_into_chunks self context [] (Chat.include_flag opts))
    as [cs|]; simpl in H; [|discriminate H].
  destruct (Chat.loop self post format p (Chat.include_flag opts) 0 cs Chat.start)
    as [st|] eqn:Hloop; simpl in H; [|discriminate H].
  injection H as <-. simpl.
  apply (chat_loop_invariant self post format p (Chat.include_flag opts) cs 0
           Chat.start st eq_refl ltac:(vm_compute; discriminate)
           (fun _ => eq_refl) (Forall_nil _) Hloop).
Qed.

Lemma chat_success_chunks_below_max_tokens_witness :
  Forall (fun it => _count_tokens (Chat.input_text it) < 20)
    [ {| Chat.index := 1;
         Chat.input_text := lit "one two three";
         Chat.response_text := JStr (lit "a b c") |};
      {| Chat.index := 2;
         Chat.input_text := lit "four five six";
         Chat.response_text := JStr (lit "Next a b c") |} ].
Proof.
  exact (chat_success_chunks_below_max_tokens small_chat
           (echo_post (lit "a b c")) format_plain two_lines example_prompts
           (Some {| Chat.include_last_chunk := Some true;
                    Chat.last_chunk_token_count := None |})
           {| Chat.status := "success";
              Chat.chunks :=
                [ {| Chat.index := 1;
                     Chat.input_text := lit "one two three";
                     Chat.response_text := JStr (lit "a b c") |};
                  {| Chat.index := 2;
                     Chat.input_text := lit "four five six";
                     Chat.response_text := JStr (lit "Next a b c") |} ] |}
           ltac:(vm_compute; reflexivity)).
Defined.

(** X17. The chat run is all or nothing for call failures too: when the
    model call for some chunk raises, after the chunks before it were
    processed and the reservation for it passed, [process] raises that
    same exception and returns none of the collected items. *)
Theorem chat_call_failure_aborts_run (self : BaseAIProcessor)
    (post : transport) (format : str -> str -> result str)
    (context : str) (p : Chat.prompts) (opts : option Chat.options)
    (pre : list str) (chunk : str) (rest : list str)
    (st : Chat.state) (prompt : str) (e : exn) :
  _split_into_chunks self context [] (Chat.include_flag opts)
  = Ok (pre ++ chunk :: rest) ->
  Chat.loop self post format p (Chat.include_flag opts) 0 pre Chat.start = Ok st ->
  Chat.build_prompt format p (List.length pre) st = Ok prompt ->
  0 < max_tokens self
      - (_count_tokens prompt + _count_tokens chunk + Chat.carried_token_count st) ->
  Chat._call_model post (List.length pre) prompt chunk = Raise e ->
  Chat.process self post format context p opts = Raise e.
Proof.
  intros Hsplit Hpre Hprompt Hreserved Hcall.
  unfold Chat.process. rewrite Hsplit. cbn [bind].
  rewrite chat_loop_app, Hpre. cbn [bind Chat.loop Nat.add].
  unfold Chat.step. rewrite Hprompt. cbn [bind].
  rewrite (reserve_returns _ _ _ _ Hreserved). cbn [bind].
  rewrite Hcall. reflexivity.
Qed.

Lemma chat_call_failure_aborts_run_witness :
  Chat.process small_chat
    (fun calls _ _ =>
       match calls with
       | O => Ok (chat_reply (lit "a b c"))
       | S _ => Raise (TransportError "timeout")
       end)
    format_plain two_lines example_prompts None
  = Raise (TransportError "timeout").
Proof.
  exact (chat_call_failure_aborts_run small_chat
           (fun calls _ _ =>
              match calls with
              | O => Ok (chat_reply (lit "a b c"))
              | S _ => Raise (TransportError "timeout")
              end)
           format_plain two_lines example_prompts None
           [lit "one two three"] (lit "four five six") []
           {| Chat.results :=
                [ {| Chat.index := 1;
                     Chat.input_text := lit "one two three";
                     Chat.response_text := JStr (lit "a b c") |} ];
              Chat.last_chunk_end := [];
              Chat.carried_token_count := 0 |}
           (lit "Next ") (TransportError "timeout")
           ltac:(vm_compute; reflexivity) ltac:(vm_compute; reflexivity)
           ltac:(vm_compute; reflexivity) ltac:(vm_compute; reflexivity)
           ltac:(vm_compute; reflexivity)).
Defined.

(** X18. A processor whose chunk size is not positive fails every chat
    run with the error of a too small chunk size, before any call and even
    on an empty context; with a positive chunk size the empty context gives
    a successful run with no item. *)
Theorem chat_run_without_chunks (self : BaseAIProcessor) (post : transport)
    (format : str -> str -> result str) (p : Chat.prompts)
    (opts : option Chat.options) :
  (chunk_size self <= 0 ->
   forall context,
     Chat.process self post format context p opts = Raise chunk_too_small)
  /\ (0 < chunk_size self ->
      Chat.process self post format [] p opts
      = Ok {| Chat.status := "success"; Chat.chunks := [] |}).
Proof.
  split.
  - intros Hsmall context. unfold Chat.process, _split_into_chunks.
    rewrite effective_budget_no_tail.
    replace (chunk_size self <=? 0) with true by (symmetry; apply Z.leb_le; lia).
    reflexivity.
  - intros Hpos. unfold Chat.process, _split_into_chunks.
    rewrite effective_budget_no_tail.
    replace (chunk_size self <=? 0) with false by (symmetry; apply Z.leb_gt; lia).
    reflexivity.
Qed.

Lemma chat_run_without_chunks_witness :
  (forall context,
     Chat.process
       {| max_tokens := 1; response_ratio := Some three_quarters;
          chunk_size := 0 |}
       (constant_post (chat_reply (lit "Mock response"))) format_plain
       context example_prompts None
     = Raise chunk_too_small)
  /\ Chat.process small_chat
       (constant_post (chat_reply (lit "Mock response"))) format_plain
       [] example_prompts None
     = Ok {| Chat.status := "success"; Chat.chunks := [] |}.
Proof.
  split.
  - exact (proj1
             (chat_run_without_chunks
                {| max_tokens := 1; response_ratio := Some three_quarters;
                   chunk_size := 0 |}
                (constant_post (chat_reply (lit "Mock response"))) format_plain
                example_prompts None)
             ltac:(vm_compute; intro H; discriminate H)).
  - exact (proj2
             (chat_run_without_chunks small_chat
                (constant_post (chat_reply (lit "Mock response"))) format_plain
                example_prompts None)
             ltac:(vm_compute; reflexivity)).
Defined.

Example init_with_zero_chunk_size :
  init 1 (Some three_quarters)
  = Ok {| max_tokens := 1; response_ratio := Some three_quarters;
          chunk_size := 0 |}.
Proof. vm_compute. reflexivity. Qed.

(** ** How many chunks a split gives *)

Lemma single_word_chunk_is_word (cs : list str) (c : str) :
  In c cs -> Spec.single_word c = true ->
  In c (List.concat (map str_split cs)).
Proof.
  intros Hin Hword. apply in_concat. exists [c]. split; [|left; reflexivity].
  rewrite <- (str_split_single_word c Hword). apply in_map, Hin.
Qed.

Lemma sum_counts_le (budget : Z) (cs : list str) :
  Forall (fun c => _count_tokens c <= budget) cs ->
  sum (map _count_tokens cs) <= budget * len cs.
Proof.
  unfold len. induction 1 as [|c cs Hc _ IH]; [simpl; lia|].
  change (List.length (c :: cs)) with (S (List.length cs)).
  rewrite Nat2Z.inj_succ, Z.mul_succ_r. cbn [map sum fold_right].
  fold (sum (map _count_tokens cs)). lia.
Qed.

Lemma Forall_count_le (budget : Z) (pieces : list str) :
  forallb (fun x => _count_tokens x <=? budget) pieces = true ->
  Forall (fun x => _count_tokens x <= budget) pieces.
Proof.
  intros H. apply Forall_forall. intros x Hin.
  apply Z.leb_le. revert x Hin. apply forallb_forall. exact H.
Qed.

(** X19. When no word of the context counts more than the effective
    budget, every chunk is within the budget, without exception, and so
    the split gives at least [tokens / budget] chunks:
    [count_tokens(context) <= budget * len(chunks)]. *)
Theorem split_without_oversized_words (self : BaseAIProcessor)
    (context last_chunk_end : str) (include_last_chunk : bool) :
  0 < effective_budget self last_chunk_end include_last_chunk ->
  Forall
    (fun w =>
       _count_tokens w
       <= effective_budget self last_chunk_end include_last_chunk)
    (str_split context) ->
  exists cs,
    _split_into_chunks self context last_chunk_end include_last_chunk = Ok cs
    /\ Forall
         (fun c =>
            _count_tokens c
            <= effective_budget self last_chunk_end include_last_chunk)
         cs
    /\ _count_tokens context
       <= effective_budget self last_chunk_end include_last_chunk * len cs.
Proof.
  intros Hpos Hwords.
  pose proof (split_into_chunks_returns self context last_chunk_end
                include_last_chunk Hpos) as Hcs.
  set (budget := effective_budget self last_chunk_end include_last_chunk) in *.
  set (cs := split_finish _) in Hcs.
  assert (Hok : Forall (chunk_ok budget) cs)
    by (apply split_finish_ok, lines_fold_inv, split_start_inv, Hpos).
  assert (Hfit : Forall (fun c => _count_tokens c <= budget) cs).
  { pose proof (split_keeps_words _ _ _ _ _ Hcs) as Hsame.
    rewrite str_split_join in Hsame.
    rewrite Forall_forall in *. intros c Hin.
    destruct (Hok c Hin) as [Hle | [Hword Hbig]]; [exact Hle|].
    apply Hwords. rewrite <- Hsame.
    apply single_word_chunk_is_word; assumption. }
  exists cs. split; [exact Hcs|]. split; [exact Hfit|].
  pose proof (sum_counts_le budget cs Hfit) as Hsum.
  assert (Htotal : sum (map _count_tokens cs) = _count_tokens context).
  { rewrite sum_counts_of_words, <- str_split_join.
    rewrite (split_keeps_words _ _ _ _ _ Hcs), <- count_tokens_words.
    reflexivity. }
  lia.
Qed.

Lemma split_without_oversized_words_witness :
  exists cs,
    _split_into_chunks
      {| max_tokens := 200; response_ratio := None; chunk_size := 2 |}
      (lit "ab cd ef abcdefghij gh") [] false
    = Ok cs
    /\ Forall (fun c => _count_tokens c <= 2) cs
    /\ _count_tokens (lit "ab cd ef abcdefghij gh") <= 2 * len cs.
Proof.
  exact (split_without_oversized_words
           {| max_tokens := 200; response_ratio := None; chunk_size := 2 |}
           (lit "ab cd ef abcdefghij gh") [] false
           ltac:(vm_compute; reflexivity)
           (Forall_count_le 2 (str_split (lit "ab cd ef abcdefghij gh"))
              ltac:(vm_compute; reflexivity))).
Defined.

Lemma adjacent_over_total (budget : Z) (cs : list str) :
  (adjacent_over budget cs ->
   (budget + 1) * (len cs / 2) <= sum (map _count_tokens cs))
  /\ (forall a,
        adjacent_over budget (a :: cs) ->
        (budget + 1) * (len (a :: cs) / 2) <= sum (map _count_tokens (a :: cs))).
Proof.
  unfold len. induction cs as [|b rest [IH1 IH2]].
  - split.
    + intros _. change (Z.of_nat (List.length (@nil str)) / 2) with 0.
      rewrite Z.mul_0_r. reflexivity.
    + intros a _. change (Z.of_nat (List.length [a]) / 2) with 0.
      rewrite Z.mul_0_r. cbn [map sum fold_right].
      pose proof (count_tokens_nonneg a). lia.
  - split; [apply IH2|].
    intros a [Hab Hrest].
    destruct Hrest as [Hhead Hadj]. specialize (IH1 Hadj).
    change (List.length (a :: b :: rest)) with (S (S (List.length rest))).
    rewrite !Nat2Z.inj_succ.
    replace (Z.succ (Z.succ (Z.of_nat (List.length rest))))
      with (Z.of_nat (List.length rest) + 1 * 2) by lia.
    rewrite Z.div_add, Z.mul_add_distr_l by lia.
    cbn [map sum fold_right]. fold (sum (map _count_tokens rest)). lia.
Qed.

(** X20. The greedy packing bounds the number of chunks, hence of model
    calls: with a positive effective budget every two chunks account for
    more than [budget] tokens, so
    [(budget + 1) * (len(chunks) // 2) <= count_tokens(context)]. *)
Theorem split_chunk_count_bounded (self : BaseAIProcessor)
    (context last_chunk_end : str) (include_last_chunk : bool) :
  0 < effective_budget self last_chunk_end include_last_chunk ->
  exists cs,
    _split_into_chunks self context last_chunk_end include_last_chunk = Ok cs
    /\ (effective_budget self last_chunk_end include_last_chunk + 1)
       * (len cs / 2)
       <= _count_tokens context.
Proof.
  intros Hpos.
  pose proof (split_into_chunks_returns self context last_chunk_end
                include_last_chunk Hpos) as Hcs.
  eexists. split; [exact Hcs|].
  rewrite (count_tokens_words context), <- (split_keeps_words _ _ _ _ _ Hcs).
  rewrite str_split_join, <- sum_counts_of_words.
  apply adjacent_over_total, lines_fold_packed.
  split; [reflexivity | simpl; auto].
Qed.

Lemma split_chunk_count_bounded_witness :
  exists cs,
    _split_into_chunks
      {| max_tokens := 200; response_ratio := None; chunk_size := 2 |}
      (lit "ab cd ef abcdefghijklmno gh") [] false
    = Ok cs
    /\ (2 + 1) * (len cs / 2) <= _count_tokens (lit "ab cd ef abcdefghijklmno gh").
Proof.
  exact (split_chunk_count_bounded
           {| max_tokens := 200; response_ratio := None; chunk_size := 2 |}
           (lit "ab cd ef abcdefghijklmno gh") [] false
           ltac:(vm_compute; reflexivity)).
Defined.

(** ** [_calculate_chunk_size] *)

Lemma int_of_float_nonneg (x : float) (z : Z) :
  sign_clear x -> int_of_float x = Ok z -> 0 <= z.
Proof.
  destruct x as [s|s| |s m e]; simpl; intros Hs E; try discriminate E.
  - injection E as <-. lia.
  - subst s. injection E as <-. cbn [cond_Zopp]. apply Z.shiftl_nonneg. lia.
Qed.

(** X21. For a non-negative [max_tokens] the computed chunk size is never
    negative (it can be zero, as for [max_tokens = 1] and ratio [0.75]). *)
Theorem chunk_size_nonnegative (max_tokens : Z) (response_ratio : option float)
    (size : Z) :
  0 <= max_tokens ->
  (forall ratio, response_ratio = Some ratio ->
                 valid_binary prec emax ratio = true) ->
  _calculate_chunk_size max_tokens response_ratio = Ok size ->
  0 <= size.
Proof.
  intros Hmax Hvalid. destruct response_ratio as [ratio|]; simpl.
  - specialize (Hvalid ratio eq_refl).
    fold (Spec.in_open_unit_interval ratio).
    destruct (Spec.in_open_unit_interval ratio) eqn:Hin; simpl; [|discriminate].
    unfold float_of_int.
    pose proof (normalize_sign max_tokens 0 Hmax) as Hm.
    pose proof (one_minus_ratio_sign ratio Hvalid Hin) as Hd.
    destruct (binary_normalize prec emax max_tokens 0 false) as [s|s| |s m e];
      cbn [bind]; try discriminate;
      apply int_of_float_nonneg, mul_sign; assumption.
  - intros E. injection E as <-. exact Hmax.
Qed.

Lemma chunk_size_nonnegative_witness :
  _calculate_chunk_size 1 (Some three_quarters) = Ok 0 /\ 0 <= 0.
Proof.
  split; [vm_compute; reflexivity|].
  refine (chunk_size_nonnegative 1 (Some three_quarters) 0
            ltac:(vm_compute; intro H; discriminate H) _
            ltac:(vm_compute; reflexivity)).
  intros ratio E. injection E as <-. vm_compute. reflexivity.
Defined.
